(** * CLAST causal-graph analysis: paths, cycles, predecessors, feedback links

    A shallow embedding of the graph-analysis methods of [CLASTModel]
    ([addFactor], [addLink], [deleteFactor], [deleteLink],
    [makePredecessorLists], [cleanUpFeedbackLinks], [sproutPathsFrom],
    [buildPathMatrix]) and of [Factor.setPredecessors], followed by the
    properties of the analysis engine.

    Objects are modelled as a store: a factor is named by its identifier
    (the key under which it sits in [this.factors]); a link object is
    named by its two end points, which is its identity in the program
    because [addLink] never creates a second link for an ordered pair.
    The fields that the program mutates on factor and link objects
    ([inputs], [outputs], [predecessors], [visited], [is_feedback]) are
    functions from these names, updated pointwise.  The JavaScript objects
    [this.factors], [this.links] and [this.path_matrix] are iterated with
    [for ... in], which visits name-derived string keys in insertion order;
    they are kept as lists in that order. *)

From Stdlib Require Import List Arith ZArith Bool Lia Relations Permutation.
Import ListNotations.

Set Implicit Arguments.

(** ** Data model *)

Definition Factor := nat.

Record Link := mkLink { from_factor : Factor; to_factor : Factor }.

Definition link_eqb (a b : Link) : bool :=
  Nat.eqb (from_factor a) (from_factor b) && Nat.eqb (to_factor a) (to_factor b).

Definition Path := list Factor.

Definition PathMatrix := list (Factor * list Path).

Record Model := mkModel {
  factors : list Factor;
  links : list Link;
  inputs : Factor -> list Link;
  outputs : Factor -> list Link;
  predecessors : Factor -> list Factor;
  visited : Link -> bool;
  is_feedback : Link -> bool;
  path_matrix : PathMatrix;
  cycle_list : list Path
}.

(** Field updates on the store. *)

Definition set_factors (m : Model) (v : list Factor) : Model :=
  mkModel v (links m) (inputs m) (outputs m) (predecessors m)
          (visited m) (is_feedback m) (path_matrix m) (cycle_list m).

Definition set_links (m : Model) (v : list Link) : Model :=
  mkModel (factors m) v (inputs m) (outputs m) (predecessors m)
          (visited m) (is_feedback m) (path_matrix m) (cycle_list m).

Definition set_inputs (m : Model) (f : Factor) (v : list Link) : Model :=
  mkModel (factors m) (links m)
          (fun g => if Nat.eqb g f then v else inputs m g)
          (outputs m) (predecessors m)
          (visited m) (is_feedback m) (path_matrix m) (cycle_list m).

Definition set_outputs (m : Model) (f : Factor) (v : list Link) : Model :=
  mkModel (factors m) (links m) (inputs m)
          (fun g => if Nat.eqb g f then v else outputs m g)
          (predecessors m)
          (visited m) (is_feedback m) (path_matrix m) (cycle_list m).

Definition set_predecessors (m : Model) (f : Factor) (v : list Factor) : Model :=
  mkModel (factors m) (links m) (inputs m) (outputs m)
          (fun g => if Nat.eqb g f then v else predecessors m g)
          (visited m) (is_feedback m) (path_matrix m) (cycle_list m).

Definition set_visited (m : Model) (l : Link) (v : bool) : Model :=
  mkModel (factors m) (links m) (inputs m) (outputs m) (predecessors m)
          (fun k => if link_eqb k l then v else visited m k)
          (is_feedback m) (path_matrix m) (cycle_list m).

Definition set_is_feedback (m : Model) (l : Link) (v : bool) : Model :=
  mkModel (factors m) (links m) (inputs m) (outputs m) (predecessors m)
          (visited m)
          (fun k => if link_eqb k l then v else is_feedback m k)
          (path_matrix m) (cycle_list m).

Definition set_paths (m : Model) (pm : PathMatrix) (cl : list Path) : Model :=
  mkModel (factors m) (links m) (inputs m) (outputs m) (predecessors m)
          (visited m) (is_feedback m) pm cl.

(** ** JavaScript helpers *)

(** [Array.prototype.indexOf]: the first position of [x], or [-1]. *)
Fixpoint indexOf (A : Type) (eqb : A -> A -> bool) (x : A) (l : list A) : Z :=
  match l with
  | [] => (-1)%Z
  | y :: t =>
      if eqb y x then 0%Z
      else let i := indexOf eqb x t in
           if (i <? 0)%Z then (-1)%Z else (i + 1)%Z
  end.

(** [a.splice(a.indexOf(x), 1)] guarded by [indexOf >= 0]: the first
    occurrence of [x] is taken out. *)
Fixpoint splice_first (A : Type) (eqb : A -> A -> bool) (x : A) (l : list A) : list A :=
  match l with
  | [] => []
  | y :: t => if eqb y x then t else y :: splice_first eqb x t
  end.

(** A [for] loop whose body may fail: the state is threaded through the
    elements in order, and a failure ends the loop. *)
Fixpoint for_each (A S : Type) (body : S -> A -> option S) (l : list A) (s : S) : option S :=
  match l with
  | [] => Some s
  | a :: t =>
      match body s a with
      | Some s' => for_each body t s'
      | None => None
      end
  end.

(** [this.path_matrix[k] = v]: an existing key keeps its place in the
    iteration order, a new key goes last. *)
Fixpoint pm_set (k : Factor) (v : list Path) (pm : PathMatrix) : PathMatrix :=
  match pm with
  | [] => [(k, v)]
  | (k', v') :: t =>
      if Nat.eqb k' k then (k, v) :: t else (k', v') :: pm_set k v t
  end.

(** [this.path_matrix[k].push(p)]; on a missing key the lookup is
    [undefined] and the call throws, which is [None] here. *)
Fixpoint pm_push (k : Factor) (p : Path) (pm : PathMatrix) : option PathMatrix :=
  match pm with
  | [] => None
  | (k', v') :: t =>
      if Nat.eqb k' k then Some ((k', v' ++ [p]) :: t)
      else match pm_push k p t with
           | Some t' => Some ((k', v') :: t')
           | None => None
           end
  end.

(** Modelled from the spec: the utility function [intersection] is called
    by [buildPathMatrix] but its definition is not part of the available
    sources.  The spec's cycle-identity rule (two candidates are the same
    cycle iff they have equal length and every node in one appears in the
    other) is tested in the code as
    [intersection(p, c).length === p.length], so [intersection p c] keeps,
    in order, each element of [p] that occurs in [c]. *)
Definition intersection (l1 l2 : list Factor) : list Factor :=
  filter (fun x => (0 <=? indexOf Nat.eqb x l2)%Z) l1.

(** ** Graph store *)

(** [CLASTModel.reset], restricted to the graph and its derived data. *)
Definition reset : Model :=
  mkModel [] [] (fun _ => []) (fun _ => []) (fun _ => [])
          (fun _ => false) (fun _ => false) [] [].

(** [addFactor]: a factor that exists already is returned as it is;
    otherwise a new [Factor] object (empty [inputs], [outputs] and
    [predecessors]) is stored under its identifier. *)
Definition addFactor (m : Model) (f : Factor) : Model :=
  if (0 <=? indexOf Nat.eqb f (factors m))%Z then m
  else
    let m1 := set_inputs m f [] in
    let m2 := set_outputs m1 f [] in
    let m3 := set_predecessors m2 f [] in
    set_factors m3 (factors m3 ++ [f]).

(** [addLink]: an existing link between the ordered pair is returned as it
    is; otherwise a new [Link] object ([is_feedback] and [visited] false)
    is stored and pushed on the two adjacency lists. *)
Definition addLink (m : Model) (from_f to_f : Factor) : Model :=
  let l := mkLink from_f to_f in
  if (0 <=? indexOf link_eqb l (links m))%Z then m
  else
    let m1 := set_is_feedback m l false in
    let m2 := set_visited m1 l false in
    let m3 := set_links m2 (links m2 ++ [l]) in
    let m4 := set_outputs m3 from_f (outputs m3 from_f ++ [l]) in
    set_inputs m4 to_f (inputs m4 to_f ++ [l]).

(** ** Path enumeration and cycle registry *)

(** [sproutPathsFrom(path)].  The recursion is on [fuel]; [None] stands
    for a run that does not complete (fuel exhausted, or an exception:
    an empty [path], a missing [path_matrix] key). *)
Fixpoint sproutPathsFrom (fuel : nat) (out : Factor -> list Link)
         (path : Path) (pm : PathMatrix) : option PathMatrix :=
  match fuel with
  | O => None
  | S fuel' =>
      match path with
      | [] => None
      | p0 :: _ =>
          let linksout := out (last path p0) in
          for_each
            (fun pm l =>
               let tf := to_factor l in
               let tfi := indexOf Nat.eqb tf path in
               if (tfi <=? 0)%Z then
                 let p := path ++ [tf] in
                 match pm_push (hd tf p) p pm with
                 | None => None
                 | Some pm1 =>
                     if (tfi <? 0)%Z then sproutPathsFrom fuel' out p pm1
                     else Some pm1
                 end
               else Some pm)
            linksout pm
      end
  end.

(** First half of [buildPathMatrix]: the lookup of paths per factor. *)
Definition buildPaths (fuel : nat) (fs : list Factor)
           (out : Factor -> list Link) : option PathMatrix :=
  for_each
    (fun pm k =>
       for_each
         (fun pm l =>
            let path := [k; to_factor l] in
            let pm1 := pm_set k [path] pm in
            if negb (Nat.eqb k (to_factor l))
            then sproutPathsFrom fuel out path pm1
            else Some pm1)
         (out k) pm)
    fs [].

(** [p[0] === p[p.length - 1]] (both [undefined] on an empty array). *)
Definition closes (p : Path) : bool :=
  match p with
  | [] => true
  | x :: _ => Nat.eqb x (last p x)
  end.

(** The inner loop over [cycle_list] of [buildPathMatrix]. *)
Definition known (p : Path) (cl : list Path) : bool :=
  existsb (fun c => Nat.eqb (length p) (length c)
                    && Nat.eqb (length (intersection p c)) (length p)) cl.

Definition registerPath (cl : list Path) (p : Path) : list Path :=
  if closes p then (if known p cl then cl else cl ++ [p]) else cl.

(** Second half of [buildPathMatrix]: the cycle list. *)
Definition buildCycles (pm : PathMatrix) : list Path :=
  fold_left (fun cl kv => fold_left registerPath (snd kv) cl) pm [].

Definition buildPathMatrix (fuel : nat) (m : Model) : option Model :=
  match buildPaths fuel (factors m) (outputs m) with
  | None => None
  | Some pm => Some (set_paths m pm (buildCycles pm))
  end.

(** ** Predecessor lists *)

(** [if(this.predecessors.indexOf(f) < 0) this.predecessors.push(f)]. *)
Definition push_new (m : Model) (this f : Factor) : Model :=
  if (indexOf Nat.eqb f (predecessors m this) <? 0)%Z
  then set_predecessors m this (predecessors m this ++ [f])
  else m.

(** [Factor.setPredecessors], with the recursion on [fuel].  The inner
    loop reads [ff.predecessors] while pushing on [this.predecessors];
    the two arrays are the same object only for a self-loop, and then
    nothing is pushed, so the loop runs over the array as it is when the
    loop starts. *)
Fixpoint setPredecessors (fuel : nat) (this : Factor) (m : Model) : option Model :=
  match fuel with
  | O => None
  | S fuel' =>
      for_each
        (fun m l =>
           let v := visited m l in
           let ff := from_factor l in
           let m1 := set_visited m l true in
           let m2 := push_new m1 this ff in
           match (if v then Some m2 else setPredecessors fuel' ff m2) with
           | None => None
           | Some m3 =>
               Some (fold_left (fun s f => push_new s this f)
                               (predecessors m3 ff) m3)
           end)
        (inputs m this) m
  end.

Definition makePredecessorLists (fuel : nat) (m : Model) : option Model :=
  let m1 := fold_left (fun s f => set_predecessors s f []) (factors m) m in
  let m2 := fold_left (fun s l => set_visited s l false) (links m1) m1 in
  for_each (fun s f => setPredecessors fuel f s) (factors m2) m2.

(** ** Feedback links *)

Definition markFeedback (m : Model) : Model :=
  fold_left
    (fun s l =>
       set_is_feedback s l
         (0 <=? indexOf Nat.eqb (to_factor l) (predecessors s (from_factor l)))%Z)
    (links m) m.

Definition cleanUpFeedbackLinks (fuel : nat) (m : Model) : option Model :=
  match buildPathMatrix fuel m with
  | None => None
  | Some m1 =>
      match makePredecessorLists fuel m1 with
      | None => None
      | Some m2 => Some (markFeedback m2)
      end
  end.

(** ** Deleting links and factors *)

(** The three removals of [deleteLink], before its recompute. *)
Definition removeLink (m : Model) (link : Link) : Model :=
  let ff := from_factor link in
  let tf := to_factor link in
  let m1 := set_outputs m ff (splice_first link_eqb link (outputs m ff)) in
  let m2 := set_inputs m1 tf (splice_first link_eqb link (inputs m1 tf)) in
  set_links m2 (filter (fun k => negb (link_eqb k link)) (links m2)).

Definition deleteLink (fuel : nat) (m : Model) (link : Link) : option Model :=
  cleanUpFeedbackLinks fuel (removeLink m link).

(** The [Link] class declares [from_factor] and [to_factor]; it has no
    property [from_node] or [to_node], so reading either on a link object
    yields [undefined]. *)
Definition from_node (l : Link) : option Factor := None.
Definition to_node (l : Link) : option Factor := None.

(** [x == node] where [node] is a factor object. *)
Definition loose_eq (x : option Factor) (node : Factor) : bool :=
  match x with
  | Some f => Nat.eqb f node
  | None => false
  end.

(** The loop of [deleteFactor] over [this.links].  The keys are listed
    when the loop starts; a key deleted meanwhile is skipped. *)
Definition deleteFactorLinks (fuel : nat) (m : Model) (node : Factor) : option Model :=
  for_each
    (fun s l =>
       if (0 <=? indexOf link_eqb l (links s))%Z then
         if loose_eq (from_node l) node || loose_eq (to_node l) node
         then deleteLink fuel s l
         else Some s
       else Some s)
    (links m) m.

(** How a call ends: it returns, or an exception leaves it; either way
    the store is as the call has left it. *)
Inductive Completion : Type :=
| Returned (m : Model)
| Thrown (m : Model).

(** [node.parent] is the cluster that holds the factor.  Class [Cluster]
    and the classes it extends ([NodeBox], [ObjectWithXYWH]) define no
    method [deleteFactor], so reading the property on a cluster object
    yields [undefined]. *)
Definition Cluster_deleteFactor : option (Model -> Factor -> Model) := None.

(** [deleteFactor], on the graph store: the link loop, then the call
    [node.parent.deleteFactor(node)], then
    [delete this.factors[node.identifier]].  Calling [undefined] throws a
    [TypeError], which leaves [deleteFactor] before the factor is deleted.
    [node.asXML] and [UI.removeShape] do not act on the store and are
    taken to return. *)
Definition deleteFactor (fuel : nat) (m : Model) (node : Factor) : option Completion :=
  match deleteFactorLinks fuel m node with
  | None => None
  | Some m1 =>
      match Cluster_deleteFactor with
      | None => Some (Thrown m1)
      | Some method =>
          let m2 := method m1 node in
          Some (Returned
                  (set_factors m2 (filter (fun g => negb (Nat.eqb g node)) (factors m2))))
      end
  end.

(** ** Specification vocabulary *)

(** The directed graph held by the store. *)
Definition edge (m : Model) (u v : Factor) : Prop := In (mkLink u v) (links m).

Definition reaches (m : Model) : Factor -> Factor -> Prop :=
  clos_trans Factor (edge m).

Definition acyclic (m : Model) : Prop := forall u, ~ reaches m u u.

(** Consecutive elements of [p] are joined by [E]. *)
Fixpoint walk (E : Factor -> Factor -> Prop) (p : Path) : Prop :=
  match p with
  | a :: ((b :: _) as t) => E a b /\ walk E t
  | _ => True
  end.

(** No factor occurs twice, except that the last may equal the first. *)
Definition simple_path (p : Path) : Prop :=
  NoDup (removelast p) /\ NoDup (tl p).

Definition edge_path (m : Model) (k : Factor) (p : Path) : Prop :=
  hd_error p = Some k /\ 2 <= length p /\ walk (edge m) p /\ simple_path p.

Definition closed_walk (m : Model) (p : Path) : Prop :=
  2 <= length p /\ walk (edge m) p /\ exists k, hd_error p = Some k /\ last p k = k.

(** [p] is in the list kept under key [k]. *)
Definition recorded (pm : PathMatrix) (k : Factor) (p : Path) : Prop :=
  exists pl, In (k, pl) pm /\ In p pl.

(** Every recorded path is an edge path of the store's graph. *)
Definition sound_matrix (m : Model) (pm : PathMatrix) : Prop :=
  forall k p, recorded pm k p -> edge_path m k p.

(** The cycle-identity rule of the data model: equal length, and every
    node of one occurs in the other. *)
Definition same_cycle (p c : Path) : Prop :=
  length p = length c /\ (forall x, In x p -> In x c) /\ (forall x, In x c -> In x p).

(** A cycle candidate as the enumeration produces them. *)
Definition simple_cycle (p : Path) : Prop :=
  2 <= length p /\ closes p = true /\ simple_path p.

(** The test the registry applies to a candidate [p] and an accepted [c]. *)
Definition matches (p c : Path) : Prop :=
  length p = length c /\ forall x, In x p -> In x c.


(** The store invariant: adjacency lists and the link collection describe
    the same edges, and every end point is a stored factor. *)
Record wf (m : Model) : Prop := mk_wf {
  wf_inputs : forall f l, In l (inputs m f) -> In l (links m) /\ to_factor l = f;
  wf_outputs : forall f l, In l (outputs m f) -> In l (links m) /\ from_factor l = f;
  wf_links : forall l, In l (links m) ->
      In (from_factor l) (factors m) /\ In (to_factor l) (factors m) /\
      In l (outputs m (from_factor l)) /\ In l (inputs m (to_factor l));
  wf_inputs_nodup : forall f, NoDup (inputs m f);
  wf_outputs_nodup : forall f, NoDup (outputs m f)
}.

(** The graph part of two stores is the same. *)
Definition same_graph (a b : Model) : Prop :=
  factors a = factors b /\ links a = links b /\
  inputs a = inputs b /\ outputs a = outputs b.

(** Only predecessor lists and traversal marks may differ. *)
Definition preserved (a b : Model) : Prop :=
  same_graph a b /\ is_feedback a = is_feedback b /\
  path_matrix a = path_matrix b /\ cycle_list a = cycle_list b.

(** Every listed predecessor of a stored factor reaches it in [g]. *)
Definition sound_preds (g s : Model) : Prop :=
  forall n f, In n (factors g) -> In f (predecessors s n) -> reaches g f n.

(** [s] is a later state of the predecessor pass on graph [g] that was in
    state [m]: the graph is untouched and no traversal mark was cleared. *)
Definition later (g m s : Model) : Prop :=
  same_graph s g /\ (forall l, visited m l = true -> visited s l = true).

(** Two stores with the same graph whose predecessor lists and traversal
    marks coincide on the stored factors and links. *)
Definition agree (a b : Model) : Prop :=
  same_graph a b /\
  (forall f, In f (factors a) -> predecessors a f = predecessors b f) /\
  (forall l, In l (links a) -> visited a l = visited b l).

(** [agree] between states of one pass over the graph [g]. *)
Definition agree_on (g a b : Model) : Prop := same_graph a g /\ agree a b.

Definition option_rel (A : Type) (R : A -> A -> Prop) (x y : option A) : Prop :=
  match x, y with
  | Some a, Some b => R a b
  | None, None => True
  | _, _ => False
  end.

(** Number of stored links not yet marked. *)
Definition unvisited (m : Model) : nat :=
  length (filter (fun l => negb (visited m l)) (links m)).

(** Keys of the path matrix, in iteration order. *)
Definition pm_keys (pm : PathMatrix) : list Factor := map fst pm.

(** The link that the last step of [p] traverses. *)
Fixpoint closing_step (p : Path) : option Link :=
  match p with
  | [] => None
  | a :: t =>
      match t with
      | [] => None
      | [b] => Some (mkLink a b)
      | _ :: _ => closing_step t
      end
  end.

(** The recorded cycle candidates whose closing step traverses [e]. *)
Definition candidates_closing_with (pm : PathMatrix) (e : Link) : list Path :=
  filter (fun p => closes p &&
                   match closing_step p with
                   | Some l => link_eqb l e
                   | None => false
                   end)
         (concat (map snd pm)).

(** ** Example stores *)

(** A store built through the interface: the factors, then the links, in
    the order given. *)
Definition build (fs : list Factor) (es : list (Factor * Factor)) : Model :=
  fold_left (fun m e => addLink m (fst e) (snd e)) es
            (fold_left addFactor fs reset).

(** Every link of [es] joins factors of [fs]. *)
Definition closed_input (fs : list Factor) (es : list (Factor * Factor)) : bool :=
  forallb (fun e => existsb (Nat.eqb (fst e)) fs && existsb (Nat.eqb (snd e)) fs) es.

(** Every stored link goes from a smaller to a larger identifier. *)
Definition ascending (m : Model) : bool :=
  forallb (fun l => from_factor l <? to_factor l) (links m).

(** A -> B, A -> C, B -> A (A = 0, B = 1, C = 2). *)
Definition ex_fork : Model := build [0; 1; 2] [(0, 1); (0, 2); (1, 0)].

(** The ring F -> N -> M -> G -> F with the tail H -> G
    (F = 0, M = 1, N = 2, G = 3, H = 4); the link M -> G is added before
    the link H -> G. *)
Definition ex_ring_tail : Model :=
  build [0; 1; 2; 3; 4] [(3, 0); (0, 2); (2, 1); (1, 3); (4, 3)].

(** The same factors and links, with H -> G added before M -> G. *)
Definition ex_ring_tail' : Model :=
  build [0; 1; 2; 3; 4] [(3, 0); (0, 2); (2, 1); (4, 3); (1, 3)].

(** A -> B. *)
Definition ex_pair : Model := build [0; 1] [(0, 1)].

(** A -> B, B -> A. *)
Definition ex_mutual : Model := build [0; 1] [(0, 1); (1, 0)].

(** A -> B -> C. *)
Definition ex_chain : Model := build [0; 1; 2] [(0, 1); (1, 2)].

(** The ring A -> B -> C -> A and the separate link D -> E. *)
Definition ex_ring : Model := build [0; 1; 2; 3; 4] [(0, 1); (1, 2); (2, 0); (3, 4)].

(** [ex_mutual] after a full recompute with ample fuel. *)
Definition ex_mutual_analysed : Model :=
  match cleanUpFeedbackLinks 20 ex_mutual with
  | Some m => m
  | None => ex_mutual
  end.

(** ** Consumers of the analysis *)

(** [Array.prototype.lastIndexOf]: the last position of [x], or [-1]. *)
Fixpoint lastIndexOf (A : Type) (eqb : A -> A -> bool) (x : A) (l : list A) : Z :=
  match l with
  | [] => (-1)%Z
  | y :: t =>
      let i := lastIndexOf eqb x t in
      if (0 <=? i)%Z then (i + 1)%Z
      else if eqb y x then 0%Z else (-1)%Z
  end.

(** The two fields of the model that select the cycles to highlight. *)
Record Highlight := mkHighlight {
  show_all_cycles : bool;
  selected_cycle : Z
}.

(** The loop of [Link.cycleNumbers], from index [i] on. *)
Fixpoint cycleNumbers_from (h : Highlight) (this : Link) (i : Z)
         (cl : list Path) : list Z :=
  match cl with
  | [] => []
  | c :: t =>
      let rest := cycleNumbers_from h this (i + 1) t in
      if show_all_cycles h || (i =? selected_cycle h)%Z then
        let ffi := indexOf Nat.eqb (from_factor this) c in
        if (0 <=? ffi)%Z
           && (lastIndexOf Nat.eqb (to_factor this) c =? ffi + 1)%Z
        then i :: rest
        else rest
      else rest
  end.

(** [Link.cycleNumbers]: the indices in the cycle list of the shown
    cycles that this link is part of. *)
Definition cycleNumbers (m : Model) (h : Highlight) (this : Link) : list Z :=
  cycleNumbers_from h this 0 (cycle_list m).

(** [Factor.allInputsAreFeedback]. *)
Definition allInputsAreFeedback (m : Model) (this : Factor) : bool :=
  forallb (is_feedback m) (inputs m this).

(** [highlightCycle] of the controller, on the two highlight fields
    ([nc] is [MODEL.cycle_list.length]; notification and redrawing are
    left out). *)
Definition highlightCycle (altKey shiftKey : bool) (m : Model) (h : Highlight) : Highlight :=
  let nc := Z.of_nat (length (cycle_list m)) in
  if (nc =? 0)%Z then mkHighlight false (-1)
  else if altKey then mkHighlight (negb (show_all_cycles h)) (-1)
  else if (selected_cycle h <? 0)%Z then mkHighlight false 0
  else if shiftKey then
    let s := (selected_cycle h - 1)%Z in
    mkHighlight false (if (s <? 0)%Z then (nc - 1)%Z else s)
  else
    let s := (selected_cycle h + 1)%Z in
    mkHighlight false (if (nc <=? s)%Z then 0%Z else s).

(** [a.splice(i, 1)[0]]: the element taken out, [None] ([undefined]) when
    [i] is past the end, and the array that is left. *)
Fixpoint splice_at (A : Type) (i : nat) (l : list A) : option A * list A :=
  match l with
  | [] => (None, [])
  | x :: t =>
      match i with
      | O => (Some x, t)
      | S j => (fst (splice_at j t), x :: snd (splice_at j t))
      end
  end.

(** [for(let i = n - 1; i >= 0; i--)] with a body that may fail. *)
Fixpoint for_down (S : Type) (n : nat) (body : nat -> S -> option S) (s : S) : option S :=
  match n with
  | O => Some s
  | S k =>
      match body k s with
      | Some s' => for_down k body s'
      | None => None
      end
  end.

(** Strict equality on array elements that are factors or [undefined]. *)
Definition opt_eqb (a b : option Factor) : bool :=
  match a, b with
  | Some x, Some y => Nat.eqb x y
  | None, None => true
  | _, _ => false
  end.

(** The state of [triggerSequence]: the arrays [af] and [al]. *)
Definition TriggerState := (list Factor * list (option Factor))%type.

(** [al.push(af.splice(i, 1)[0])]. *)
Definition take_out (i : nat) (st : TriggerState) : TriggerState :=
  (snd (splice_at i (fst st)), snd st ++ [fst (splice_at i (fst st))]).

(** The test of the first loop of [triggerSequence]; [static f] stands
    for [f.expression.defined && f.expression.isStatic]. *)
Definition is_entry (m : Model) (static : Factor -> bool) (f : Factor) : bool :=
  Nat.eqb (length (inputs m f)) 0 || static f.

(** First loop of [triggerSequence]: the entry factors are moved from
    [af] to [al].  Reading [inputs] of a missing array element throws. *)
Definition entryFactors (m : Model) (static : Factor -> bool) (af : list Factor)
  : option TriggerState :=
  for_down (length af)
    (fun i st =>
       match nth_error (fst st) i with
       | None => None
       | Some f => if is_entry m static f then Some (take_out i st) else Some st
       end)
    (af, []).

(** The [for] loop inside the [while] loop of [triggerSequence]: one
    [take_out] at index [i] for every incoming link of [af[i]] whose
    source is in [pl]. *)
Definition nextFactors (m : Model) (pl : list (option Factor)) (af : list Factor)
  : option TriggerState :=
  for_down (length af)
    (fun i st =>
       match nth_error (fst st) i with
       | None => None
       | Some f =>
           Some (fold_left
                   (fun st l =>
                      if (0 <=? indexOf opt_eqb (Some (from_factor l)) pl)%Z
                      then take_out i st else st)
                   (inputs m f) st)
       end)
    (af, []).

(** The [while(al.length)] loop of [triggerSequence], on [fuel]. *)
Fixpoint triggerLayers (fuel : nat) (m : Model) (af : list Factor)
         (al : list (option Factor)) (seq : list (list (option Factor)))
  : option (list (list (option Factor)) * list Factor) :=
  match al with
  | [] => Some (seq, af)
  | _ :: _ =>
      match fuel with
      | O => None
      | S n =>
          match nextFactors m al af with
          | None => None
          | Some st => triggerLayers n m (fst st) (snd st) (seq ++ [al])
          end
      end
  end.

(** [triggerSequence]: the layers [seq[0]], [seq[1]], ... and the array
    that becomes [seq.unreachable] when it is not empty.  [af] is the
    array returned by [this.top_cluster.allFactors]. *)
Definition triggerSequence (fuel : nat) (m : Model) (static : Factor -> bool)
           (af : list Factor)
  : option (list (list (option Factor)) * list Factor) :=
  match entryFactors m static af with
  | None => None
  | Some st => triggerLayers fuel m (fst st) (snd st) []
  end.

(** ** Further specification vocabulary *)

(** [c] steps from [u] to [v] at some position. *)
Definition step_of (c : Path) (u v : Factor) : Prop :=
  exists i, nth_error c i = Some u /\ nth_error c (S i) = Some v.

(** The predecessor list of [n] in [s] holds every factor that reaches
    [n] in the graph of [g]. *)
Definition complete (g s : Model) (n : Factor) : Prop :=
  forall a, reaches g a n -> In a (predecessors s n).

(** Predecessor lists only grow from [s] to [s']. *)
Definition grows (s s' : Model) : Prop :=
  forall n, incl (predecessors s n) (predecessors s' n).

(** Every visited stored link into [x] or into a factor that reaches [x]
    comes from a factor whose predecessor list is complete. *)
Definition settled (g s : Model) (x : Factor) : Prop :=
  forall l, In l (links g) -> visited s l = true ->
            to_factor l = x \/ reaches g (to_factor l) x ->
            complete g s (from_factor l).

(** From [s] to [s'] the graph is that of [g], predecessor lists grew, and
    every stored link visited in between comes from a factor whose list is
    complete. *)
Definition advance (g s s' : Model) : Prop :=
  same_graph s' g /\ grows s s' /\
  forall l, In l (links g) -> visited s' l = true ->
            visited s l = true \/ complete g s' (from_factor l).

(** The factor has at least one outgoing link. *)
Definition has_outputs (m : Model) (k : Factor) : bool :=
  negb (Nat.eqb (length (outputs m k)) 0).

(** The test of [Link.cycleNumbers] on one cycle. *)
Definition on_cycle (this : Link) (c : Path) : bool :=
  (0 <=? indexOf Nat.eqb (from_factor this) c)%Z
  && (lastIndexOf Nat.eqb (to_factor this) c
      =? indexOf Nat.eqb (from_factor this) c + 1)%Z.

(** The factors among array elements, dropping [undefined]. *)
Definition defined (l : list (option Factor)) : list Factor :=
  flat_map (fun x => match x with Some f => [f] | None => [] end) l.

(** ** Basic facts *)

Lemma link_eqb_eq (a b : Link) : link_eqb a b = true <-> a = b.
Proof.
  unfold link_eqb; destruct a as [a1 a2], b as [b1 b2]; simpl.
  rewrite andb_true_iff, !Nat.eqb_eq. split.
  - intros [-> ->]; reflexivity.
  - intros H; injection H; auto.
Qed.

Lemma link_eqb_refl (a : Link) : link_eqb a a = true.
Proof. apply link_eqb_eq; reflexivity. Qed.

Lemma link_eqb_neq (a b : Link) : link_eqb a b = false <-> a <> b.
Proof.
  rewrite <- link_eqb_eq. destruct (link_eqb a b); split; congruence.
Qed.

Section IndexOf.
Variable A : Type.
Variable eqb : A -> A -> bool.
Hypothesis eqb_eq : forall a b, eqb a b = true <-> a = b.

Lemma indexOf_lower (x : A) (l : list A) : (-1 <= indexOf eqb x l)%Z.
Proof.
  induction l as [|y t IH]; simpl; [lia|].
  destruct (eqb y x); [lia|].
  destruct (indexOf eqb x t <? 0)%Z eqn:E; [lia|]. apply Z.ltb_ge in E; lia.
Qed.

Lemma indexOf_found (x : A) (l : list A) :
  (0 <= indexOf eqb x l)%Z <-> In x l.
Proof.
  induction l as [|y t IH]; simpl.
  - split; [lia | tauto].
  - destruct (eqb y x) eqn:E.
    + apply eqb_eq in E. split; [auto | lia].
    + assert (y <> x) by (intros C; apply eqb_eq in C; congruence).
      pose proof (indexOf_lower x t) as L.
      destruct (indexOf eqb x t <? 0)%Z eqn:F.
      * apply Z.ltb_lt in F. split; [lia|].
        intros [C|C]; [congruence | apply IH in C; lia].
      * apply Z.ltb_ge in F. split; [intros _; right; apply IH; lia | lia].
Qed.

Lemma indexOf_neg (x : A) (l : list A) :
  (indexOf eqb x l < 0)%Z <-> ~ In x l.
Proof.
  rewrite <- indexOf_found. lia.
Qed.

Lemma indexOf_zero (x y : A) (l : list A) :
  indexOf eqb x (y :: l) = 0%Z <-> y = x.
Proof.
  simpl. destruct (eqb y x) eqn:E.
  - apply eqb_eq in E. tauto.
  - assert (y <> x) by (intros C; apply eqb_eq in C; congruence).
    pose proof (indexOf_lower x l) as L.
    destruct (indexOf eqb x l <? 0)%Z eqn:F; [split; [lia | tauto]|].
    apply Z.ltb_ge in F. split; [lia | tauto].
Qed.

Lemma splice_first_incl (x y : A) (l : list A) :
  In y (splice_first eqb x l) -> In y l.
Proof.
  induction l as [|z t IH]; simpl; [tauto|].
  destruct (eqb z x); simpl; tauto.
Qed.

Lemma splice_first_keeps (x y : A) (l : list A) :
  y <> x -> In y l -> In y (splice_first eqb x l).
Proof.
  intros N. induction l as [|z t IH]; simpl; [tauto|].
  destruct (eqb z x) eqn:E.
  - apply eqb_eq in E. intros [C|C]; [congruence | assumption].
  - simpl. tauto.
Qed.

Lemma splice_first_nodup (x : A) (l : list A) :
  NoDup l -> NoDup (splice_first eqb x l) /\ ~ In x (splice_first eqb x l).
Proof.
  induction 1 as [|z t Hz Ht IH]; simpl.
  - split; [constructor | tauto].
  - destruct (eqb z x) eqn:E.
    + apply eqb_eq in E; subst. tauto.
    + assert (z <> x) by (intros C; apply eqb_eq in C; congruence).
      destruct IH as [IH1 IH2]. split.
      * constructor; [|assumption]. intros C; apply splice_first_incl in C; tauto.
      * simpl. intros [C|C]; [congruence | tauto].
Qed.
End IndexOf.

(** ** Loops *)

Section Loops.
Variables A S : Type.

Lemma for_each_inv (I : S -> Prop) (body : S -> A -> option S) (l : list A) :
  (forall s a s', In a l -> I s -> body s a = Some s' -> I s') ->
  forall s s', I s -> for_each body l s = Some s' -> I s'.
Proof.
  induction l as [|a t IH]; simpl; intros Hb s s' Hs E.
  - congruence.
  - destruct (body s a) as [s1|] eqn:B; [|discriminate].
    eapply IH; [| |exact E]; eauto.
Qed.

Lemma for_each_total (I : S -> Prop) (body : S -> A -> option S) (l : list A) :
  (forall s a, In a l -> I s -> exists s', body s a = Some s' /\ I s') ->
  forall s, I s -> exists s', for_each body l s = Some s' /\ I s'.
Proof.
  induction l as [|a t IH]; simpl; intros Hb s Hs.
  - eauto.
  - destruct (Hb s a) as (s1 & B & I1); auto.
    rewrite B. apply IH; auto.
Qed.

Lemma for_each_rel (R : S -> S -> Prop) (b1 b2 : S -> A -> option S) (l : list A) :
  (forall s1 s2 a, In a l -> R s1 s2 -> option_rel R (b1 s1 a) (b2 s2 a)) ->
  forall s1 s2, R s1 s2 -> option_rel R (for_each b1 l s1) (for_each b2 l s2).
Proof.
  induction l as [|a t IH]; simpl; intros Hb s1 s2 Hs.
  - assumption.
  - pose proof (Hb s1 s2 a (or_introl eq_refl) Hs) as B.
    destruct (b1 s1 a), (b2 s2 a); simpl in B; try tauto.
    apply IH; auto.
Qed.

Lemma for_each_weaken (b1 b2 : S -> A -> option S) (l : list A) :
  (forall s a s', In a l -> b1 s a = Some s' -> b2 s a = Some s') ->
  forall s s', for_each b1 l s = Some s' -> for_each b2 l s = Some s'.
Proof.
  induction l as [|a t IH]; simpl; intros Hb s s' E.
  - assumption.
  - destruct (b1 s a) as [s1|] eqn:B; [|discriminate].
    rewrite (Hb s a s1 (or_introl eq_refl) B). apply IH; auto.
Qed.

Lemma fold_left_inv (I : S -> Prop) (f : S -> A -> S) (l : list A) :
  (forall s a, In a l -> I s -> I (f s a)) ->
  forall s, I s -> I (fold_left f l s).
Proof.
  induction l as [|a t IH]; simpl; intros Hb s Hs; auto.
Qed.

Lemma fold_left_rel (R : S -> S -> Prop) (f : S -> A -> S) (l : list A) :
  (forall s1 s2 a, In a l -> R s1 s2 -> R (f s1 a) (f s2 a)) ->
  forall s1 s2, R s1 s2 -> R (fold_left f l s1) (fold_left f l s2).
Proof.
  induction l as [|a t IH]; simpl; intros Hb s1 s2 Hs; auto.
Qed.
End Loops.

(** ** The store invariant *)

Lemma NoDup_snoc (A : Type) (l : list A) (x : A) :
  NoDup l -> ~ In x l -> NoDup (l ++ [x]).
Proof.
  induction 1 as [|y t Hy Ht IH]; simpl; intros N.
  - constructor; [tauto | constructor].
  - constructor.
    + rewrite in_app_iff; simpl. intros [C|[C|[]]]; [tauto | subst; tauto].
    + apply IH; tauto.
Qed.

Lemma same_graph_refl (m : Model) : same_graph m m.
Proof. repeat split. Qed.

Lemma same_graph_trans (a b c : Model) :
  same_graph a b -> same_graph b c -> same_graph a c.
Proof.
  unfold same_graph; intros (?&?&?&?) (?&?&?&?); repeat split; congruence.
Qed.

Lemma same_graph_sym (a b : Model) : same_graph a b -> same_graph b a.
Proof. unfold same_graph; intros (?&?&?&?); repeat split; congruence. Qed.

Lemma wf_same_graph (a b : Model) : same_graph a b -> wf a -> wf b.
Proof.
  destruct a, b; unfold same_graph; simpl; intros (?&?&?&?) W; subst.
  destruct W; constructor; assumption.
Qed.

Lemma wf_reset : wf reset.
Proof.
  constructor; simpl; try tauto; intros; constructor.
Qed.

Lemma wf_addFactor (m : Model) (f : Factor) : wf m -> wf (addFactor m f).
Proof.
  intros W. unfold addFactor.
  destruct (0 <=? indexOf Nat.eqb f (factors m))%Z eqn:E; [assumption|].
  apply Z.leb_gt in E. apply (indexOf_neg Nat.eqb Nat.eqb_eq) in E.
  destruct W as [Wi Wo Wl Ni No].
  constructor; simpl; intros.
  - destruct (Nat.eqb_spec f0 f); [contradiction | auto].
  - destruct (Nat.eqb_spec f0 f); [contradiction | auto].
  - destruct (Wl l H) as (Hf & Ht & Ho & Hi).
    rewrite !in_app_iff.
    destruct (Nat.eqb_spec (from_factor l) f); [subst f; tauto|].
    destruct (Nat.eqb_spec (to_factor l) f); [subst f; tauto|].
    tauto.
  - destruct (Nat.eqb_spec f0 f); [constructor | auto].
  - destruct (Nat.eqb_spec f0 f); [constructor | auto].
Qed.

Lemma wf_addLink (m : Model) (a b : Factor) :
  wf m -> In a (factors m) -> In b (factors m) -> wf (addLink m a b).
Proof.
  intros W Ha Hb. unfold addLink.
  destruct (0 <=? indexOf link_eqb _ (links m))%Z eqn:E; [assumption|].
  apply Z.leb_gt in E. apply (indexOf_neg link_eqb link_eqb_eq) in E.
  destruct W as [Wi Wo Wl Ni No].
  constructor; simpl; intros.
  - rewrite in_app_iff. destruct (Nat.eqb_spec f b).
    + subst. apply in_app_iff in H. destruct H as [H|[H|[]]].
      * destruct (Wi _ _ H); tauto.
      * subst; simpl; tauto.
    + destruct (Wi _ _ H); tauto.
  - rewrite in_app_iff. destruct (Nat.eqb_spec f a).
    + subst. apply in_app_iff in H. destruct H as [H|[H|[]]].
      * destruct (Wo _ _ H); tauto.
      * subst; simpl; tauto.
    + destruct (Wo _ _ H); tauto.
  - apply in_app_iff in H. destruct H as [H|[H|[]]].
    + destruct (Wl l H) as (Hf & Ht & Ho & Hi).
      repeat split; auto.
      * destruct (Nat.eqb_spec (from_factor l) a) as [e|e];
          [apply in_app_iff; left; rewrite <- e|]; exact Ho.
      * destruct (Nat.eqb_spec (to_factor l) b) as [e|e];
          [apply in_app_iff; left; rewrite <- e|]; exact Hi.
    + subst l; simpl. rewrite !Nat.eqb_refl.
      repeat split; auto; apply in_app_iff; simpl; auto.
  - destruct (Nat.eqb_spec f b); [|auto].
    apply NoDup_snoc; [auto|]. intros C. destruct (Wi _ _ C); tauto.
  - destruct (Nat.eqb_spec f a); [|auto].
    apply NoDup_snoc; [auto|]. intros C. destruct (Wo _ _ C); tauto.
Qed.

Lemma wf_removeLink (m : Model) (k : Link) : wf m -> wf (removeLink m k).
Proof.
  intros [Wi Wo Wl Ni No]. unfold removeLink.
  constructor; simpl; intros.
  - assert (In l (inputs m f) /\ l <> k) as [H1 H2].
    { destruct (Nat.eqb_spec f (to_factor k)); subst.
      - split; [eapply splice_first_incl; eauto|].
        intros ->. apply (splice_first_nodup link_eqb link_eqb_eq k (Ni (to_factor k))) in H; auto.
      - split; [auto|]. intros ->. destruct (Wi _ _ H); congruence. }
    destruct (Wi _ _ H1). split; [|assumption].
    apply filter_In. split; [assumption|].
    apply negb_true_iff, link_eqb_neq; assumption.
  - assert (In l (outputs m f) /\ l <> k) as [H1 H2].
    { destruct (Nat.eqb_spec f (from_factor k)); subst.
      - split; [eapply splice_first_incl; eauto|].
        intros ->. apply (splice_first_nodup link_eqb link_eqb_eq k (No (from_factor k))) in H; auto.
      - split; [auto|]. intros ->. destruct (Wo _ _ H); congruence. }
    destruct (Wo _ _ H1). split; [|assumption].
    apply filter_In. split; [assumption|].
    apply negb_true_iff, link_eqb_neq; assumption.
  - apply filter_In in H. destruct H as [H N].
    apply negb_true_iff, link_eqb_neq in N.
    destruct (Wl l H) as (Hf & Ht & Ho & Hi).
    repeat split; auto.
    + destruct (Nat.eqb_spec (from_factor l) (from_factor k)) as [e|e]; [|auto].
      apply (splice_first_keeps link_eqb link_eqb_eq); [auto | rewrite <- e; auto].
    + destruct (Nat.eqb_spec (to_factor l) (to_factor k)) as [e|e]; [|auto].
      apply (splice_first_keeps link_eqb link_eqb_eq); [auto | rewrite <- e; auto].
  - destruct (Nat.eqb_spec f (to_factor k)); [|auto].
    apply (splice_first_nodup link_eqb link_eqb_eq); auto.
  - destruct (Nat.eqb_spec f (from_factor k)); [|auto].
    apply (splice_first_nodup link_eqb link_eqb_eq); auto.
Qed.

Lemma removeLink_spec (m : Model) (k : Link) :
  wf m ->
  factors (removeLink m k) = factors m /\
  (forall l, In l (links (removeLink m k)) <-> In l (links m) /\ l <> k) /\
  (forall f l, In l (outputs (removeLink m k) f) <-> In l (outputs m f) /\ l <> k) /\
  (forall f l, In l (inputs (removeLink m k) f) <-> In l (inputs m f) /\ l <> k).
Proof.
  intros [Wi Wo Wl Ni No]. unfold removeLink; simpl.
  split; [reflexivity|]. split; [|split].
  - intros l. rewrite filter_In, negb_true_iff, link_eqb_neq. tauto.
  - intros f l. destruct (Nat.eqb_spec f (from_factor k)) as [e|e].
    + subst f. split.
      * intros H. split; [eapply splice_first_incl; eauto|].
        intros ->. apply (splice_first_nodup link_eqb link_eqb_eq k (No (from_factor k))) in H; auto.
      * intros [H N]. apply (splice_first_keeps link_eqb link_eqb_eq); auto.
    + split; [|tauto]. intros H. split; [auto|].
      intros ->. destruct (Wo _ _ H); congruence.
  - intros f l. destruct (Nat.eqb_spec f (to_factor k)) as [e|e].
    + subst f. split.
      * intros H. split; [eapply splice_first_incl; eauto|].
        intros ->. apply (splice_first_nodup link_eqb link_eqb_eq k (Ni (to_factor k))) in H; auto.
      * intros [H N]. apply (splice_first_keeps link_eqb link_eqb_eq); auto.
    + split; [|tauto]. intros H. split; [auto|].
      intros ->. destruct (Wi _ _ H); congruence.
Qed.

(** ** The path matrix as a keyed store *)

Lemma pm_set_recorded (k : Factor) (v : list Path) (pm : PathMatrix) (k' : Factor) (p : Path) :
  recorded (pm_set k v pm) k' p -> (k' = k /\ In p v) \/ recorded pm k' p.
Proof.
  unfold recorded. induction pm as [|[a w] t IH]; simpl.
  - intros (pl & [E|[]] & Hp). injection E as <- <-. auto.
  - destruct (Nat.eqb_spec a k) as [e|e].
    + intros (pl & [E|Hin] & Hp).
      * injection E as <- <-. auto.
      * right. exists pl; simpl; auto.
    + intros (pl & [E|Hin] & Hp).
      * right. exists pl; simpl; auto.
      * destruct IH as [?|(pl' & ? & ?)]; [exists pl; auto | auto |].
        right. exists pl'; simpl; auto.
Qed.

Lemma pm_set_keys (k : Factor) (v : list Path) (pm : PathMatrix) :
  In k (pm_keys (pm_set k v pm)).
Proof.
  induction pm as [|[a w] t IH]; simpl; [auto|].
  destruct (Nat.eqb_spec a k); simpl; auto.
Qed.

Lemma pm_push_recorded (k : Factor) (p : Path) (pm pm' : PathMatrix) (k' : Factor) (q : Path) :
  pm_push k p pm = Some pm' ->
  recorded pm' k' q -> (k' = k /\ q = p) \/ recorded pm k' q.
Proof.
  unfold recorded. revert pm'. induction pm as [|[a w] t IH]; simpl; intros pm' E.
  - discriminate.
  - destruct (Nat.eqb_spec a k) as [e|e].
    + injection E as <-. intros (pl & [F|Hin] & Hq).
      * injection F as <- <-. apply in_app_iff in Hq.
        destruct Hq as [Hq|[Hq|[]]]; [right; exists w; simpl; auto | auto].
      * right. exists pl; simpl; auto.
    + destruct (pm_push k p t) as [t'|] eqn:P; [|discriminate].
      injection E as <-. intros (pl & [F|Hin] & Hq).
      * right. exists pl; simpl; auto.
      * destruct (IH t' eq_refl) as [?|(pl' & ? & ?)]; [exists pl; auto | auto |].
        right. exists pl'; simpl; auto.
Qed.

Lemma pm_push_keys (k : Factor) (p : Path) (pm pm' : PathMatrix) :
  pm_push k p pm = Some pm' -> pm_keys pm' = pm_keys pm.
Proof.
  revert pm'. induction pm as [|[a w] t IH]; simpl; intros pm' E.
  - discriminate.
  - destruct (Nat.eqb a k).
    + injection E as <-. reflexivity.
    + destruct (pm_push k p t) as [t'|]; [|discriminate].
      injection E as <-. simpl. f_equal. auto.
Qed.

Lemma pm_push_total (k : Factor) (p : Path) (pm : PathMatrix) :
  In k (pm_keys pm) -> exists pm', pm_push k p pm = Some pm'.
Proof.
  induction pm as [|[a w] t IH]; simpl.
  - tauto.
  - destruct (Nat.eqb_spec a k) as [e|e]; [eauto|].
    intros [C|C]; [congruence|].
    destruct (IH C) as (t' & ->). eauto.
Qed.

(** ** Walks and simple paths *)

Lemma walk_snoc (E : Factor -> Factor -> Prop) (path : Path) (d x : Factor) :
  path <> [] -> walk E path -> E (last path d) x -> walk E (path ++ [x]).
Proof.
  induction path as [|a t IH]; [congruence|].
  intros _ W L. destruct t as [|b t].
  - simpl in *. auto.
  - change (walk E (a :: (b :: t) ++ [x])).
    simpl in W. destruct W as [Wab Wt].
    simpl. split; [assumption|].
    apply IH; [discriminate | assumption | exact L].
Qed.

Lemma walk_reaches (E : Factor -> Factor -> Prop) (p : Path) (a d : Factor) :
  p <> [] -> walk E (a :: p) -> clos_trans Factor E a (last (a :: p) d).
Proof.
  revert a. induction p as [|b t IH]; [congruence|].
  intros a _ [Wab Wt]. destruct t as [|c t].
  - simpl. apply t_step; assumption.
  - apply t_trans with b; [apply t_step; assumption|].
    change (last (a :: b :: c :: t) d) with (last (b :: c :: t) d).
    apply IH; [discriminate | assumption].
Qed.

Lemma simple_path_extend (path : Path) (x : Factor) :
  path <> [] -> NoDup path -> ~ In x path -> simple_path (path ++ [x]).
Proof.
  intros Hne Hnd Hx. unfold simple_path.
  rewrite removelast_last. split; [assumption|].
  destruct path as [|a t]; [congruence|]. simpl.
  apply NoDup_snoc; [inversion Hnd; assumption | simpl in Hx; tauto].
Qed.

Lemma simple_path_close (p0 : Factor) (rest : Path) :
  NoDup (p0 :: rest) -> simple_path ((p0 :: rest) ++ [p0]).
Proof.
  intros Hnd. unfold simple_path.
  rewrite removelast_last. split; [assumption|]. simpl.
  inversion Hnd; subst. apply NoDup_snoc; assumption.
Qed.

(** ** Soundness of the path enumeration *)

Section PathSoundness.
Variable m : Model.
Hypothesis out_edges :
  forall f l, In l (outputs m f) -> In l (links m) /\ from_factor l = f.

Lemma out_edge (f : Factor) (l : Link) :
  In l (outputs m f) -> edge m f (to_factor l).
Proof.
  intros H. destruct (out_edges _ _ H) as [Hl Hf].
  unfold edge. destruct l as [a b]; simpl in *; subst; assumption.
Qed.

Lemma sproutPathsFrom_sound (fuel : nat) :
  forall path pm pm',
    path <> [] -> NoDup path -> walk (edge m) path ->
    sound_matrix m pm ->
    sproutPathsFrom fuel (outputs m) path pm = Some pm' ->
    sound_matrix m pm'.
Proof.
  induction fuel as [|n IH]; intros path pm pm' Hne Hnd Hw Hs E; [discriminate|].
  simpl in E. destruct path as [|p0 rest] eqn:Hp; [congruence|].
  rewrite <- Hp in *.
  revert E. apply for_each_inv with (I := sound_matrix m); [|assumption].
  clear pm pm' Hs. intros pm l pm' Hl Hs E.
  pose proof (out_edge _ _ Hl) as He.
  destruct (indexOf Nat.eqb (to_factor l) path <=? 0)%Z eqn:T;
    [|injection E as <-; assumption].
  apply Z.leb_le in T.
  assert (Hhd : hd (to_factor l) (path ++ [to_factor l]) = p0)
    by (rewrite Hp; reflexivity).
  rewrite Hhd in E.
  destruct (pm_push p0 (path ++ [to_factor l]) pm) as [pm1|] eqn:P; [|discriminate].
  assert (Hw' : walk (edge m) (path ++ [to_factor l]))
    by (eapply walk_snoc; eauto).
  assert (Hsm : simple_path (path ++ [to_factor l])).
  { destruct (Z_lt_le_dec (indexOf Nat.eqb (to_factor l) path) 0) as [C|C].
    - apply simple_path_extend; auto.
      apply (indexOf_neg Nat.eqb Nat.eqb_eq); assumption.
    - assert (Z0 : indexOf Nat.eqb (to_factor l) path = 0%Z) by lia.
      rewrite Hp in Z0. apply (indexOf_zero Nat.eqb Nat.eqb_eq) in Z0.
      rewrite <- Z0, Hp. apply simple_path_close. rewrite <- Hp; assumption. }
  assert (Hs1 : sound_matrix m pm1).
  { intros k q Hr. destruct (pm_push_recorded _ _ _ P Hr) as [[-> ->]|Hr']; [|auto].
    repeat split; try assumption.
    - rewrite Hp; reflexivity.
    - rewrite length_app, Hp; simpl; lia.
    - apply Hsm.
    - apply Hsm. }
  destruct (indexOf Nat.eqb (to_factor l) path <? 0)%Z eqn:T2;
    [|injection E as <-; assumption].
  apply Z.ltb_lt in T2. apply (indexOf_neg Nat.eqb Nat.eqb_eq) in T2.
  eapply IH; [| | | exact Hs1 | exact E]; auto.
  - destruct path; discriminate.
  - apply NoDup_snoc; assumption.
Qed.

Lemma buildPaths_sound (fuel : nat) (fs : list Factor) (pm : PathMatrix) :
  buildPaths fuel fs (outputs m) = Some pm -> sound_matrix m pm.
Proof.
  unfold buildPaths.
  apply for_each_inv with (I := sound_matrix m).
  - intros pm0 k pm1 _ Hs.
    apply for_each_inv with (I := sound_matrix m); [|assumption].
    clear pm0 pm1 Hs. intros pm0 l pm1 Hl Hs E.
    pose proof (out_edge _ _ Hl) as He.
    assert (Hs1 : sound_matrix m (pm_set k [[k; to_factor l]] pm0)).
    { intros k' q Hr. destruct (pm_set_recorded _ _ _ Hr) as [[-> [<-|[]]]|Hr']; [|auto].
      repeat split; simpl; auto.
      - constructor; [simpl; tauto | constructor].
      - constructor; [simpl; tauto | constructor]. }
    destruct (Nat.eqb_spec k (to_factor l)) as [e|e]; simpl in E.
    + injection E as <-; assumption.
    + eapply sproutPathsFrom_sound; [| | | exact Hs1 | exact E].
      * discriminate.
      * constructor; [simpl; intros [C|[]]; congruence|].
        constructor; [simpl; tauto | constructor].
      * simpl; auto.
  - intros k p (pl & [] & _).
Qed.
End PathSoundness.

Lemma buildCycles_recorded (pm : PathMatrix) (c : Path) :
  In c (buildCycles pm) -> closes c = true /\ exists k, recorded pm k c.
Proof.
  unfold buildCycles.
  pattern (fold_left (fun cl kv => fold_left registerPath (snd kv) cl) pm []).
  revert c.
  apply fold_left_inv with
    (I := fun cl => forall c, In c cl -> closes c = true /\ exists k, recorded pm k c).
  - intros cl [k pl] Hkv Hcl. simpl.
    apply fold_left_inv with
      (I := fun cl => forall c, In c cl -> closes c = true /\ exists k, recorded pm k c);
      [|assumption].
    intros cl' p Hp Hcl' c. unfold registerPath.
    destruct (closes p) eqn:C; [|auto].
    destruct (known p cl'); [auto|].
    rewrite in_app_iff. intros [H|[<-|[]]]; [auto|].
    split; [assumption|]. exists k, pl; auto.
  - intros c [].
Qed.

Lemma edge_path_closed (m : Model) (k : Factor) (c : Path) :
  edge_path m k c -> closes c = true -> closed_walk m c.
Proof.
  intros (Hh & Hl & Hw & _) Hc. repeat split; try assumption.
  destruct c as [|a t]; [discriminate|].
  exists a. split; [reflexivity|].
  simpl in Hc. apply Nat.eqb_eq in Hc. symmetry; exact Hc.
Qed.

Lemma closed_walk_reaches (m : Model) (c : Path) :
  closed_walk m c -> exists k, reaches m k k.
Proof.
  intros (Hl & Hw & k & Hh & Hk).
  destruct c as [|a t]; [discriminate|]. injection Hh as ->.
  exists k. unfold reaches. rewrite <- Hk at 2.
  apply walk_reaches; [|assumption].
  destruct t; [simpl in Hl; lia | discriminate].
Qed.

(** ** Termination of the path enumeration *)

Section PathTermination.
Variable out : Factor -> list Link.
Variable nodes : list Factor.
Hypothesis targets : forall f l, In l (out f) -> In (to_factor l) nodes.

Lemma sproutPathsFrom_total (fuel : nat) :
  forall path pm p0,
    hd_error path = Some p0 -> NoDup path -> incl path nodes ->
    In p0 (pm_keys pm) ->
    length nodes < fuel + length path ->
    exists pm', sproutPathsFrom fuel out path pm = Some pm'
                /\ pm_keys pm' = pm_keys pm.
Proof.
  induction fuel as [|n IH]; intros path pm p0 Hh Hnd Hin Hk Hlen.
  - pose proof (NoDup_incl_length Hnd Hin). simpl in Hlen. lia.
  - simpl. destruct path as [|q rest] eqn:Hp; [discriminate|].
    injection Hh as ->. rewrite <- Hp in *.
    apply for_each_total with (I := fun s => pm_keys s = pm_keys pm); [|reflexivity].
    intros s l Hl Hs.
    destruct (indexOf Nat.eqb (to_factor l) path <=? 0)%Z eqn:T; [|eauto].
    assert (Hhd : hd (to_factor l) (path ++ [to_factor l]) = p0)
      by (rewrite Hp; reflexivity).
    rewrite Hhd.
    destruct (pm_push_total p0 (path ++ [to_factor l]) s) as (pm1 & P);
      [rewrite Hs; assumption|].
    rewrite P. pose proof (pm_push_keys _ _ _ P) as K1.
    destruct (indexOf Nat.eqb (to_factor l) path <? 0)%Z eqn:T2;
      [|exists pm1; split; [reflexivity | congruence]].
    apply Z.ltb_lt in T2. apply (indexOf_neg Nat.eqb Nat.eqb_eq) in T2.
    destruct (IH (path ++ [to_factor l]) pm1 p0) as (pm2 & E2 & K2).
    + rewrite Hp; reflexivity.
    + apply NoDup_snoc; assumption.
    + intros x Hx. apply in_app_iff in Hx.
      destruct Hx as [Hx|[<-|[]]]; [auto | eapply targets; eauto].
    + congruence.
    + rewrite length_app; simpl. lia.
    + exists pm2. split; [assumption | congruence].
Qed.

Lemma buildPaths_total (fuel : nat) (fs : list Factor) :
  incl fs nodes -> length nodes < fuel ->
  exists pm, buildPaths fuel fs out = Some pm.
Proof.
  intros Hfs Hlen. unfold buildPaths.
  destruct (for_each_total (fun _ : PathMatrix => True)
              (fun pm k =>
                 for_each
                   (fun pm l =>
                      let path := [k; to_factor l] in
                      let pm1 := pm_set k [path] pm in
                      if negb (Nat.eqb k (to_factor l))
                      then sproutPathsFrom fuel out path pm1
                      else Some pm1)
                   (out k) pm) fs) with (s := @nil (Factor * list Path))
    as (pm & E & _); [|exact I|eauto].
  intros s k Hk _.
  apply for_each_total with (I := fun _ : PathMatrix => True); [|exact I].
  intros s' l Hl _. cbv zeta.
  destruct (Nat.eqb_spec k (to_factor l)) as [e|e]; simpl; [eauto|].
  destruct (sproutPathsFrom_total fuel (path := [k; to_factor l])
              (pm_set k [[k; to_factor l]] s') (p0 := k)) as (pm2 & E2 & _); eauto.
  - constructor; [simpl; intros [C|[]]; congruence|].
    constructor; [simpl; tauto | constructor].
  - intros x [<-|[<-|[]]]; [auto | eapply targets; eauto].
  - apply pm_set_keys.
  - simpl. lia.
Qed.
End PathTermination.

(** ** Predecessor lists: frame and soundness *)

Lemma preserved_refl (m : Model) : preserved m m.
Proof. repeat split. Qed.

Lemma preserved_trans (a b c : Model) :
  preserved a b -> preserved b c -> preserved a c.
Proof.
  unfold preserved. intros (G1&?&?&?) (G2&?&?&?).
  split; [eapply same_graph_trans; eauto|]. repeat split; congruence.
Qed.

Lemma push_new_preserved (m : Model) (this f : Factor) :
  preserved (push_new m this f) m /\ visited (push_new m this f) = visited m.
Proof.
  unfold push_new. destruct (_ <? 0)%Z; repeat split.
Qed.

Lemma push_new_In (m : Model) (this f g x : Factor) :
  In x (predecessors (push_new m this f) g) <->
  In x (predecessors m g) \/ (g = this /\ x = f).
Proof.
  unfold push_new.
  destruct (indexOf Nat.eqb f (predecessors m this) <? 0)%Z eqn:E; simpl.
  - destruct (Nat.eqb_spec g this) as [->|N].
    + rewrite in_app_iff; simpl. intuition congruence.
    + intuition congruence.
  - apply Z.ltb_ge in E. apply (indexOf_found Nat.eqb Nat.eqb_eq) in E.
    split; [tauto|]. intros [H|[-> ->]]; assumption.
Qed.

Lemma push_all_preserved (this : Factor) (fs : list Factor) (m : Model) :
  preserved (fold_left (fun s f => push_new s this f) fs m) m /\
  visited (fold_left (fun s f => push_new s this f) fs m) = visited m.
Proof.
  apply fold_left_inv with (I := fun s => preserved s m /\ visited s = visited m).
  - intros s a _ [P V]. destruct (push_new_preserved s this a) as [P' V'].
    split; [eapply preserved_trans; eauto | congruence].
  - split; [apply preserved_refl | reflexivity].
Qed.

Lemma setPredecessors_preserved (fuel : nat) :
  forall this m m', setPredecessors fuel this m = Some m' -> preserved m' m.
Proof.
  induction fuel as [|n IH]; intros this m m' E; [discriminate|].
  simpl in E. revert E.
  apply for_each_inv with (I := fun s => preserved s m); [|apply preserved_refl].
  intros s l s' _ Hs E.
  set (m2 := push_new (set_visited s l true) this (from_factor l)) in *.
  assert (P2 : preserved m2 s).
  { destruct (push_new_preserved (set_visited s l true) this (from_factor l)) as [P _].
    eapply preserved_trans; [exact P | repeat split]. }
  destruct (if visited s l then Some m2 else setPredecessors n (from_factor l) m2)
    as [m3|] eqn:R; [|discriminate].
  injection E as <-.
  assert (P3 : preserved m3 m2).
  { destruct (visited s l); [injection R as <-; apply preserved_refl | eauto]. }
  destruct (push_all_preserved this (predecessors m3 (from_factor l)) m3) as [P4 _].
  eauto using preserved_trans.
Qed.

Section PredecessorSoundness.
Variable g : Model.
Hypothesis Wg : wf g.

Lemma in_edge (this : Factor) (l : Link) :
  In l (inputs g this) ->
  edge g (from_factor l) this /\ In (from_factor l) (factors g) /\ In l (links g).
Proof.
  intros H. destruct (wf_inputs Wg _ _ H) as [Hl Ht].
  destruct (wf_links Wg _ Hl) as (Hf & _).
  repeat split; try assumption.
  unfold edge. destruct l as [a b]; simpl in *; subst; assumption.
Qed.

Lemma setPredecessors_sound (fuel : nat) :
  forall this m m',
    same_graph m g -> sound_preds g m ->
    setPredecessors fuel this m = Some m' ->
    sound_preds g m'.
Proof.
  induction fuel as [|n IH]; intros this m m' G S E; [discriminate|].
  simpl in E.
  assert (Hin : inputs m this = inputs g this) by (destruct G as (_&_&->&_); reflexivity).
  rewrite Hin in E.
  cut (same_graph m' g /\ sound_preds g m'); [tauto|].
  revert E.
  apply for_each_inv with (I := fun s => same_graph s g /\ sound_preds g s); [|tauto].
  intros s l s' Hl [Gs Ss] E.
  destruct (in_edge _ _ Hl) as (He & Hf & _).
  set (m2 := push_new (set_visited s l true) this (from_factor l)) in *.
  assert (G2 : same_graph m2 g).
  { destruct (push_new_preserved (set_visited s l true) this (from_factor l)) as [[P _] _].
    eapply same_graph_trans; [exact P | exact Gs]. }
  assert (S2 : sound_preds g m2).
  { intros k f Hk Hfk. apply push_new_In in Hfk.
    destruct Hfk as [Hfk|[-> ->]]; [apply Ss; assumption|].
    apply t_step; assumption. }
  destruct (if visited s l then Some m2 else setPredecessors n (from_factor l) m2)
    as [m3|] eqn:R; [|discriminate].
  injection E as <-.
  assert (G3 : same_graph m3 g /\ sound_preds g m3).
  { destruct (visited s l).
    - injection R as <-; tauto.
    - split; [|eapply IH; eauto].
      apply setPredecessors_preserved in R. destruct R as [P _].
      eapply same_graph_trans; eauto. }
  destruct G3 as [G3 S3].
  assert (Hall : forall f, In f (predecessors m3 (from_factor l)) -> reaches g f this).
  { intros f Hfp. apply t_trans with (from_factor l); [apply S3; assumption|].
    apply t_step; assumption. }
  revert Hall. generalize (predecessors m3 (from_factor l)). intros fs Hall.
  apply fold_left_inv with (I := fun s => same_graph s g /\ sound_preds g s); [|tauto].
  intros s0 a Ha [G0 S0]. split.
  - destruct (push_new_preserved s0 this a) as [[P _] _].
    eapply same_graph_trans; eauto.
  - intros k f Hk Hfk. apply push_new_In in Hfk.
    destruct Hfk as [Hfk|[-> ->]]; [apply S0; assumption | auto].
Qed.
End PredecessorSoundness.

(** ** Predecessor lists: termination *)

Lemma filter_length_mono (A : Type) (p q : A -> bool) (l : list A) :
  (forall x, In x l -> q x = true -> p x = true) ->
  length (filter q l) <= length (filter p l).
Proof.
  induction l as [|a t IH]; simpl; intros H; [lia|].
  assert (IH' : length (filter q t) <= length (filter p t)) by (apply IH; auto).
  destruct (q a) eqn:Q.
  - rewrite (H a); simpl; auto; lia.
  - destruct (p a); simpl; lia.
Qed.

Lemma filter_length_strict (A : Type) (p q : A -> bool) (l : list A) (x : A) :
  (forall y, In y l -> q y = true -> p y = true) ->
  In x l -> p x = true -> q x = false ->
  length (filter q l) < length (filter p l).
Proof.
  induction l as [|a t IH]; simpl; intros H Hx Px Qx; [tauto|].
  assert (L : length (filter q t) <= length (filter p t))
    by (apply filter_length_mono; auto).
  destruct Hx as [->|Hx].
  - rewrite Px, Qx. simpl. lia.
  - assert (IH' : length (filter q t) < length (filter p t)) by (apply IH; auto).
    destruct (q a) eqn:Q.
    + rewrite (H a); simpl; auto; lia.
    + destruct (p a); simpl; lia.
Qed.

Lemma unvisited_le (a b : Model) :
  links b = links a ->
  (forall l, visited a l = true -> visited b l = true) ->
  unvisited b <= unvisited a.
Proof.
  intros L M. unfold unvisited. rewrite L.
  apply filter_length_mono. intros x _ H.
  apply negb_true_iff in H. apply negb_true_iff.
  destruct (visited a x) eqn:V; [|reflexivity].
  rewrite (M _ V) in H; discriminate.
Qed.

Lemma unvisited_mark (m : Model) (l : Link) :
  In l (links m) -> visited m l = false ->
  unvisited (set_visited m l true) < unvisited m.
Proof.
  intros Hl V. unfold unvisited; simpl.
  apply filter_length_strict with (x := l); auto.
  - intros y _ H. destruct (link_eqb y l); [discriminate | assumption].
  - rewrite V; reflexivity.
  - rewrite link_eqb_refl; reflexivity.
Qed.

Lemma set_visited_mono (m : Model) (l k : Link) :
  visited m k = true -> visited (set_visited m l true) k = true.
Proof. simpl. destruct (link_eqb k l); auto. Qed.

Section PredecessorTermination.
Variable g : Model.
Hypothesis inputs_stored : forall f l, In l (inputs g f) -> In l (links g).

Lemma setPredecessors_total (fuel : nat) :
  forall this m,
    same_graph m g -> unvisited m < fuel ->
    exists m', setPredecessors fuel this m = Some m' /\ later g m m'.
Proof.
  induction fuel as [|n IH]; intros this m G U; [lia|].
  simpl.
  assert (Hin : inputs m this = inputs g this) by (destruct G as (_&_&->&_); reflexivity).
  rewrite Hin.
  apply for_each_total with (I := later g m); [|split; auto].
  intros s l Hl [Gs Ms].
  assert (Ls : links s = links m) by (destruct G as (_&->&_), Gs as (_&->&_); reflexivity).
  assert (Us : unvisited s <= unvisited m) by (apply unvisited_le; auto).
  set (m1 := set_visited s l true).
  set (m2 := push_new m1 this (from_factor l)).
  assert (G2 : same_graph m2 g).
  { destruct (push_new_preserved m1 this (from_factor l)) as [[P _] _].
    eapply same_graph_trans; [exact P | exact Gs]. }
  assert (V2 : visited m2 = visited m1)
    by (apply push_new_preserved).
  assert (R : exists m3, (if visited s l then Some m2
                          else setPredecessors n (from_factor l) m2) = Some m3
                         /\ later g m m3).
  { destruct (visited s l) eqn:V.
    - exists m2. split; [reflexivity|]. split; [assumption|].
      intros k Hk. rewrite V2. apply set_visited_mono; auto.
    - assert (U2 : unvisited m2 < n).
      { assert (unvisited m1 < unvisited s).
        { apply unvisited_mark; [|assumption].
          destruct Gs as (_&->&_). eapply inputs_stored; eauto. }
        unfold unvisited in *. rewrite V2.
        replace (links m2) with (links m1)
          by (symmetry; apply (push_new_preserved m1 this (from_factor l))).
        lia. }
      destruct (IH (from_factor l) m2 G2 U2) as (m3 & E3 & G3 & M3).
      exists m3. split; [assumption|]. split; [assumption|].
      intros k Hk. apply M3. rewrite V2. apply set_visited_mono; auto. }
  destruct R as (m3 & -> & G3 & M3).
  eexists. split; [reflexivity|].
  destruct (push_all_preserved this (predecessors m3 (from_factor l)) m3) as [[P _] V].
  split; [eapply same_graph_trans; eauto|].
  intros k Hk. rewrite V. auto.
Qed.
End PredecessorTermination.

(** ** Predecessor lists depend on the graph only *)

Lemma link_eq_dec (a b : Link) : {a = b} + {a <> b}.
Proof.
  destruct (link_eqb a b) eqn:E.
  - left. apply link_eqb_eq; assumption.
  - right. apply link_eqb_neq; assumption.
Qed.

Lemma reset_predecessors_spec (fs : list Factor) :
  forall m,
    let m' := fold_left (fun s f => set_predecessors s f []) fs m in
    preserved m' m /\ visited m' = visited m /\
    (forall f, In f fs -> predecessors m' f = []) /\
    (forall f, ~ In f fs -> predecessors m' f = predecessors m f).
Proof.
  induction fs as [|a t IH]; intros m; simpl.
  - repeat split; tauto.
  - destruct (IH (set_predecessors m a [])) as (P & V & H1 & H2).
    split; [eapply preserved_trans; [exact P | repeat split]|].
    split; [rewrite V; reflexivity|]. split.
    + intros f Hf. destruct (in_dec Nat.eq_dec f t) as [i|i]; [auto|].
      rewrite (H2 f i). simpl.
      destruct Hf as [->|Hf]; [rewrite Nat.eqb_refl; reflexivity | tauto].
    + intros f Hf. rewrite H2 by tauto. simpl.
      destruct (Nat.eqb_spec f a); [subst; tauto | reflexivity].
Qed.

Lemma reset_visited_spec (ls : list Link) :
  forall m,
    let m' := fold_left (fun s l => set_visited s l false) ls m in
    preserved m' m /\ predecessors m' = predecessors m /\
    (forall l, In l ls -> visited m' l = false) /\
    (forall l, ~ In l ls -> visited m' l = visited m l).
Proof.
  induction ls as [|a t IH]; intros m; simpl.
  - repeat split; tauto.
  - destruct (IH (set_visited m a false)) as (P & V & H1 & H2).
    split; [eapply preserved_trans; [exact P | repeat split]|].
    split; [rewrite V; reflexivity|]. split.
    + intros l Hl. destruct (in_dec link_eq_dec l t) as [i|i]; [auto|].
      rewrite (H2 l i). simpl.
      destruct Hl as [->|Hl]; [rewrite link_eqb_refl; reflexivity | tauto].
    + intros l Hl. rewrite H2 by tauto. simpl.
      destruct (link_eqb l a) eqn:E; [|reflexivity].
      apply link_eqb_eq in E. subst; tauto.
Qed.

Section GraphOnly.
Variable g : Model.
Hypothesis Wg : wf g.

Lemma set_visited_agree (a b : Model) (l : Link) (v : bool) :
  agree_on g a b -> agree_on g (set_visited a l v) (set_visited b l v).
Proof.
  intros (G & (G' & P & V)). repeat split; try apply G; try apply G'; simpl.
  - assumption.
  - intros k Hk. rewrite (V k Hk). reflexivity.
Qed.

Lemma push_new_agree (a b : Model) (this f : Factor) :
  In this (factors g) ->
  agree_on g a b -> agree_on g (push_new a this f) (push_new b this f).
Proof.
  intros Ht (G & (G' & P & V)).
  assert (Hp : predecessors a this = predecessors b this)
    by (apply P; destruct G as (->&_); assumption).
  unfold push_new. rewrite Hp.
  destruct (indexOf Nat.eqb f (predecessors b this) <? 0)%Z;
    [|repeat split; try apply G; try apply G'; assumption].
  repeat split; try apply G; try apply G'; simpl.
  - intros k Hk. rewrite (P k Hk). reflexivity.
  - assumption.
Qed.

Lemma setPredecessors_agree (fuel : nat) :
  forall this a b,
    In this (factors g) -> agree_on g a b ->
    option_rel (agree_on g) (setPredecessors fuel this a) (setPredecessors fuel this b).
Proof.
  induction fuel as [|n IH]; intros this a b Ht R; [exact I|].
  simpl.
  assert (Ha : inputs a this = inputs g this)
    by (destruct R as ((_&_&->&_)&_); reflexivity).
  assert (Hb : inputs b this = inputs g this)
    by (destruct R as ((_&_&<-&_)&((_&_&->&_)&_)); reflexivity).
  rewrite Ha, Hb.
  apply for_each_rel; [|assumption].
  intros s1 s2 l Hl R12.
  destruct (in_edge Wg _ _ Hl) as (_ & Hf & Hlk).
  assert (Hv : visited s1 l = visited s2 l).
  { destruct R12 as (G & (_ & _ & V)). apply V. destruct G as (_&->&_); assumption. }
  rewrite <- Hv.
  assert (R2 : agree_on g (push_new (set_visited s1 l true) this (from_factor l))
                          (push_new (set_visited s2 l true) this (from_factor l)))
    by (apply push_new_agree; [exact Ht | apply set_visited_agree; exact R12]).
  set (x1 := push_new (set_visited s1 l true) this (from_factor l)) in *.
  set (x2 := push_new (set_visited s2 l true) this (from_factor l)) in *.
  assert (R3 : option_rel (agree_on g)
                 (if visited s1 l then Some x1 else setPredecessors n (from_factor l) x1)
                 (if visited s1 l then Some x2 else setPredecessors n (from_factor l) x2)).
  { destruct (visited s1 l); [exact R2 | apply IH; assumption]. }
  destruct (if visited s1 l then Some x1 else setPredecessors n (from_factor l) x1) as [y1|];
    destruct (if visited s1 l then Some x2 else setPredecessors n (from_factor l) x2) as [y2|];
    simpl in R3; try tauto.
  simpl.
  assert (Hp : predecessors y1 (from_factor l) = predecessors y2 (from_factor l)).
  { destruct R3 as (G & (_ & P & _)). apply P. destruct G as (->&_); assumption. }
  rewrite <- Hp.
  apply fold_left_rel; [|assumption].
  intros; apply push_new_agree; assumption.
Qed.

Lemma makePredecessorLists_agree (fuel : nat) (a b : Model) :
  same_graph a g -> same_graph b g ->
  option_rel (agree_on g) (makePredecessorLists fuel a) (makePredecessorLists fuel b).
Proof.
  intros Ga Gb. unfold makePredecessorLists.
  set (a1 := fold_left (fun s f => set_predecessors s f []) (factors a) a).
  set (b1 := fold_left (fun s f => set_predecessors s f []) (factors b) b).
  destruct (reset_predecessors_spec (factors a) a) as ((Ga1 & _) & _ & Pa & _).
  destruct (reset_predecessors_spec (factors b) b) as ((Gb1 & _) & _ & Pb & _).
  fold a1 in Ga1, Pa. fold b1 in Gb1, Pb.
  set (a2 := fold_left (fun s l => set_visited s l false) (links a1) a1).
  set (b2 := fold_left (fun s l => set_visited s l false) (links b1) b1).
  destruct (reset_visited_spec (links a1) a1) as ((Ga2 & _) & Pa2 & Va & _).
  destruct (reset_visited_spec (links b1) b1) as ((Gb2 & _) & Pb2 & Vb & _).
  fold a2 in Ga2, Pa2, Va. fold b2 in Gb2, Pb2, Vb.
  assert (Ga2g : same_graph a2 g) by eauto using same_graph_trans.
  assert (Gb2g : same_graph b2 g) by eauto using same_graph_trans.
  assert (Hfa : factors a2 = factors g) by apply Ga2g.
  assert (Hfb : factors b2 = factors g) by apply Gb2g.
  assert (R : agree_on g a2 b2).
  { split; [assumption|]. split; [|split].
    - eapply same_graph_trans; [exact Ga2g | apply same_graph_sym; exact Gb2g].
    - intros f Hf. rewrite Pa2, Pb2, Pa, Pb; [reflexivity| |].
      + replace (factors b) with (factors g); [rewrite <- Hfa; assumption|].
        symmetry; apply Gb.
      + replace (factors a) with (factors g); [rewrite <- Hfa; assumption|].
        symmetry; apply Ga.
    - intros l Hl. rewrite Va, Vb; [reflexivity| |].
      + replace (links b1) with (links g);
          [replace (links g) with (links a2); [assumption | apply Ga2g]|].
        symmetry. eapply same_graph_trans; [exact Gb1 | exact Gb].
      + replace (links a1) with (links a2); [assumption | apply Ga2]. }
  rewrite Hfa, Hfb.
  apply for_each_rel; [|assumption].
  intros s1 s2 f Hf R12. apply setPredecessors_agree; assumption.
Qed.
End GraphOnly.

Lemma markFeedback_steps (ls : list Link) :
  forall s,
    let s' := fold_left
                (fun s l =>
                   set_is_feedback s l
                     (0 <=? indexOf Nat.eqb (to_factor l)
                                    (predecessors s (from_factor l)))%Z) ls s in
    same_graph s' s /\ predecessors s' = predecessors s /\
    path_matrix s' = path_matrix s /\ cycle_list s' = cycle_list s /\
    (forall l, In l ls ->
       is_feedback s' l =
       (0 <=? indexOf Nat.eqb (to_factor l) (predecessors s (from_factor l)))%Z) /\
    (forall l, ~ In l ls -> is_feedback s' l = is_feedback s l).
Proof.
  induction ls as [|a t IH]; intros s; simpl.
  - repeat split; tauto.
  - match goal with |- context [fold_left _ t ?x] => destruct (IH x) as (G & P & M & C & H1 & H2) end.
    split; [eapply same_graph_trans; [exact G | repeat split]|].
    split; [rewrite P; reflexivity|].
    split; [rewrite M; reflexivity|].
    split; [rewrite C; reflexivity|]. split.
    + intros l Hl. destruct (in_dec link_eq_dec l t) as [i|i]; [rewrite (H1 l i); reflexivity|].
      rewrite (H2 l i). simpl.
      destruct Hl as [->|Hl]; [rewrite link_eqb_refl; reflexivity | tauto].
    + intros l Hl. rewrite H2 by tauto. simpl.
      destruct (link_eqb l a) eqn:E; [|reflexivity].
      apply link_eqb_eq in E. subst; tauto.
Qed.

Lemma markFeedback_spec (m : Model) :
  same_graph (markFeedback m) m /\
  predecessors (markFeedback m) = predecessors m /\
  path_matrix (markFeedback m) = path_matrix m /\
  cycle_list (markFeedback m) = cycle_list m /\
  (forall l, In l (links m) ->
     is_feedback (markFeedback m) l =
     (0 <=? indexOf Nat.eqb (to_factor l) (predecessors m (from_factor l)))%Z) /\
  (forall l, ~ In l (links m) -> is_feedback (markFeedback m) l = is_feedback m l).
Proof. apply (markFeedback_steps (links m) m). Qed.

(** ** The cycle registry *)

Lemma filter_all (A : Type) (f : A -> bool) (l : list A) :
  length (filter f l) = length l <-> forall x, In x l -> f x = true.
Proof.
  induction l as [|a t IH]; simpl.
  - split; [tauto | reflexivity].
  - pose proof (List.filter_length_le f t) as L.
    destruct (f a) eqn:E; simpl.
    + split.
      * intros H x [<-|Hx]; [assumption|]. apply IH; [lia | assumption].
      * intros H. f_equal. apply IH. auto.
    + split; [lia|]. intros H. rewrite (H a) in E; [discriminate | auto].
Qed.

Lemma intersection_full (p c : Path) :
  length (intersection p c) = length p <-> forall x, In x p -> In x c.
Proof.
  unfold intersection. rewrite filter_all.
  split; intros H x Hx.
  - apply (indexOf_found Nat.eqb Nat.eqb_eq). apply Z.leb_le. auto.
  - apply Z.leb_le. apply (indexOf_found Nat.eqb Nat.eqb_eq). auto.
Qed.

Lemma known_spec (p : Path) (cl : list Path) :
  known p cl = true <-> exists c, In c cl /\ matches p c.
Proof.
  unfold known, matches. rewrite existsb_exists.
  split; intros (c & Hc & H); exists c; (split; [assumption|]).
  - apply andb_true_iff in H. rewrite !Nat.eqb_eq in H.
    split; [tauto|]. apply intersection_full; tauto.
  - apply andb_true_iff. rewrite !Nat.eqb_eq.
    split; [tauto|]. apply intersection_full; tauto.
Qed.

Lemma simple_cycle_nodes (p : Path) :
  simple_cycle p ->
  NoDup (removelast p) /\ S (length (removelast p)) = length p /\
  forall x, In x p <-> In x (removelast p).
Proof.
  intros (Hl & Hc & Hs & _).
  destruct p as [|a [|b t]]; simpl in Hl; try lia.
  split; [assumption|].
  assert (E : a :: b :: t = removelast (a :: b :: t) ++ [last (a :: b :: t) a])
    by (apply app_removelast_last; discriminate).
  split.
  - rewrite E at 2. rewrite length_app; simpl. lia.
  - intros x. split.
    + intros Hx. rewrite E in Hx. apply in_app_iff in Hx.
      destruct Hx as [Hx|[Hx|[]]]; [assumption|].
      unfold closes in Hc. apply Nat.eqb_eq in Hc. rewrite <- Hc in Hx.
      subst x. simpl. auto.
    + intros Hx. rewrite E. apply in_app_iff; auto.
Qed.

Lemma matches_same_cycle (p c : Path) :
  simple_cycle p -> simple_cycle c -> (matches p c <-> same_cycle p c).
Proof.
  intros Hp Hc. unfold matches, same_cycle.
  split; [|tauto]. intros [Hlen Hin].
  split; [assumption|]. split; [assumption|].
  destruct (simple_cycle_nodes Hp) as (Np & Lp & Ip).
  destruct (simple_cycle_nodes Hc) as (Nc & Lc & Ic).
  assert (I1 : incl (removelast p) (removelast c)).
  { intros x Hx. apply Ic, Hin, Ip, Hx. }
  assert (I2 : incl (removelast c) (removelast p)).
  { apply NoDup_length_incl; [assumption | lia | assumption]. }
  intros x Hx. apply Ip, I2, Ic, Hx.
Qed.




Lemma buildCycles_sequential (pm : PathMatrix) :
  buildCycles pm = fold_left registerPath (concat (map snd pm)) [].
Proof.
  unfold buildCycles. generalize (@nil Path).
  induction pm as [|[k pl] t IH]; intros cl; simpl; [reflexivity|].
  rewrite fold_left_app. apply IH.
Qed.

Lemma edge_path_simple_cycle (m : Model) (k : Factor) (p : Path) :
  edge_path m k p -> closes p = true -> simple_cycle p.
Proof.
  intros (_ & Hl & _ & Hs) Hc. repeat split; try assumption; apply Hs.
Qed.

(** ** Stores built through the interface *)

Lemma addFactor_factors (m : Model) (f : Factor) :
  In f (factors (addFactor m f)) /\ incl (factors m) (factors (addFactor m f)).
Proof.
  unfold addFactor.
  destruct (0 <=? indexOf Nat.eqb f (factors m))%Z eqn:E.
  - apply Z.leb_le in E. apply (indexOf_found Nat.eqb Nat.eqb_eq) in E.
    split; [assumption | apply incl_refl].
  - simpl. split; [apply in_app_iff; simpl; auto | apply incl_appl, incl_refl].
Qed.

Lemma addFactors_wf (fs : list Factor) :
  forall m, wf m ->
    wf (fold_left addFactor fs m) /\
    incl (factors m) (factors (fold_left addFactor fs m)) /\
    incl fs (factors (fold_left addFactor fs m)).
Proof.
  induction fs as [|a t IH]; intros m W; simpl.
  - split; [assumption | split; [apply incl_refl | intros x []]].
  - destruct (IH (addFactor m a) (wf_addFactor a W)) as (W' & I1 & I2).
    destruct (addFactor_factors m a) as [Ha Hm].
    split; [assumption|]. split.
    + eapply incl_tran; eauto.
    + intros x [<-|Hx]; auto.
Qed.

Lemma addLink_factors (m : Model) (a b : Factor) :
  factors (addLink m a b) = factors m.
Proof.
  unfold addLink. destruct (0 <=? _)%Z; reflexivity.
Qed.

Lemma wf_build (fs : list Factor) (es : list (Factor * Factor)) :
  closed_input fs es = true -> wf (build fs es).
Proof.
  intros C. unfold closed_input in C. rewrite forallb_forall in C.
  unfold build.
  destruct (addFactors_wf fs wf_reset) as (W & _ & I).
  cut (wf (fold_left (fun m e => addLink m (fst e) (snd e)) es
                     (fold_left addFactor fs reset)) /\
       incl fs (factors (fold_left (fun m e => addLink m (fst e) (snd e)) es
                                   (fold_left addFactor fs reset)))); [tauto|].
  apply fold_left_inv with (I := fun s => wf s /\ incl fs (factors s)); [|tauto].
  intros s e He [Ws Is].
  apply C in He. apply andb_true_iff in He. destruct He as [H1 H2].
  apply existsb_exists in H1. destruct H1 as (x & Hx & Ex). apply Nat.eqb_eq in Ex.
  apply existsb_exists in H2. destruct H2 as (y & Hy & Ey). apply Nat.eqb_eq in Ey.
  subst x y. split.
  - apply wf_addLink; [assumption | apply Is; assumption | apply Is; assumption].
  - rewrite addLink_factors. assumption.
Qed.

Lemma ascending_acyclic (m : Model) : ascending m = true -> acyclic m.
Proof.
  intros A. unfold ascending in A. rewrite forallb_forall in A.
  assert (R : forall u v, reaches m u v -> u < v).
  { intros u v H. induction H as [u v E|u w v _ IH1 _ IH2]; [|lia].
    apply A in E. simpl in E. apply Nat.ltb_lt in E. assumption. }
  intros u H. apply R in H. lia.
Qed.

(** ** The recompute, step by step *)

Lemma makePredecessorLists_preserved (fuel : nat) (m m' : Model) :
  makePredecessorLists fuel m = Some m' -> preserved m' m.
Proof.
  unfold makePredecessorLists.
  set (m1 := fold_left (fun s f => set_predecessors s f []) (factors m) m).
  set (m2 := fold_left (fun s l => set_visited s l false) (links m1) m1).
  assert (P2 : preserved m2 m).
  { eapply preserved_trans; [apply (reset_visited_spec (links m1) m1)|].
    apply (reset_predecessors_spec (factors m) m). }
  apply for_each_inv with (I := fun s => preserved s m); [|assumption].
  intros s f s' _ Ps E. apply setPredecessors_preserved in E.
  eapply preserved_trans; eauto.
Qed.

Lemma makePredecessorLists_sound (fuel : nat) (m m' : Model) :
  wf m -> makePredecessorLists fuel m = Some m' -> sound_preds m m'.
Proof.
  intros W. unfold makePredecessorLists.
  set (m1 := fold_left (fun s f => set_predecessors s f []) (factors m) m).
  set (m2 := fold_left (fun s l => set_visited s l false) (links m1) m1).
  destruct (reset_predecessors_spec (factors m) m) as (P1 & _ & Z1 & _). fold m1 in P1, Z1.
  destruct (reset_visited_spec (links m1) m1) as (P2 & E2 & _). fold m2 in P2, E2.
  assert (G2 : same_graph m2 m) by (eapply same_graph_trans; [apply P2 | apply P1]).
  intros E. cut (same_graph m' m /\ sound_preds m m'); [tauto|].
  revert E.
  apply for_each_inv with (I := fun s => same_graph s m /\ sound_preds m s).
  - intros s f s' _ [Gs Ss] E. split.
    + apply setPredecessors_preserved in E. eapply same_graph_trans; [apply E | exact Gs].
    + eapply setPredecessors_sound; eauto.
  - split; [assumption|].
    intros n f Hn Hf. rewrite E2, (Z1 n Hn) in Hf. destruct Hf.
Qed.

Lemma makePredecessorLists_total (fuel : nat) (m : Model) :
  (forall f l, In l (inputs m f) -> In l (links m)) ->
  length (links m) < fuel ->
  exists m', makePredecessorLists fuel m = Some m'.
Proof.
  intros Hin Hlen. unfold makePredecessorLists.
  set (m1 := fold_left (fun s f => set_predecessors s f []) (factors m) m).
  set (m2 := fold_left (fun s l => set_visited s l false) (links m1) m1).
  assert (G2 : same_graph m2 m).
  { eapply same_graph_trans; [apply (reset_visited_spec (links m1) m1)|].
    apply (reset_predecessors_spec (factors m) m). }
  destruct (for_each_total (fun s => same_graph s m)
              (fun s f => setPredecessors fuel f s) (factors m2)) with (s := m2)
    as (m' & E & _); [|assumption|eauto].
  intros s f _ Gs.
  destruct (setPredecessors_total (g := m) Hin (fuel := fuel) f Gs) as (s' & E & G' & _).
  - unfold unvisited. pose proof (List.filter_length_le (fun l => negb (visited s l)) (links s)).
    replace (links s) with (links m) in * by (symmetry; apply Gs). lia.
  - eauto.
Qed.

Lemma cleanUpFeedbackLinks_steps (fuel : nat) (m m' : Model) :
  cleanUpFeedbackLinks fuel m = Some m' ->
  exists pm m2,
    buildPaths fuel (factors m) (outputs m) = Some pm /\
    makePredecessorLists fuel (set_paths m pm (buildCycles pm)) = Some m2 /\
    m' = markFeedback m2.
Proof.
  unfold cleanUpFeedbackLinks, buildPathMatrix.
  destruct (buildPaths fuel (factors m) (outputs m)) as [pm|]; [|discriminate].
  destruct (makePredecessorLists fuel _) as [m2|] eqn:E; [|discriminate].
  intros H; injection H as <-. eauto.
Qed.

Lemma cleanUpFeedbackLinks_graph (fuel : nat) (m m' : Model) :
  cleanUpFeedbackLinks fuel m = Some m' ->
  same_graph m' m /\
  (forall l, ~ In l (links m) -> is_feedback m' l = is_feedback m l).
Proof.
  intros E. destruct (cleanUpFeedbackLinks_steps _ _ E) as (pm & m2 & _ & E2 & ->).
  apply makePredecessorLists_preserved in E2. destruct E2 as (G2 & F2 & _).
  destruct (markFeedback_spec m2) as (G3 & _ & _ & _ & _ & F3).
  split.
  - eapply same_graph_trans; [exact G3|]. eapply same_graph_trans; [exact G2 | repeat split].
  - intros l Hl. rewrite F3, F2; [reflexivity|].
    replace (links m2) with (links m); [assumption|]. symmetry; apply G2.
Qed.

Lemma cleanUpFeedbackLinks_graph_only (fuel : nat) (a b a' b' : Model) :
  wf a -> same_graph b a ->
  cleanUpFeedbackLinks fuel a = Some a' ->
  cleanUpFeedbackLinks fuel b = Some b' ->
  path_matrix a' = path_matrix b' /\ cycle_list a' = cycle_list b' /\
  (forall l, In l (links a) -> is_feedback a' l = is_feedback b' l).
Proof.
  intros W G Ea Eb.
  destruct (cleanUpFeedbackLinks_steps _ _ Ea) as (pa & a2 & Pa & Ma & ->).
  destruct (cleanUpFeedbackLinks_steps _ _ Eb) as (pb & b2 & Pb & Mb & ->).
  assert (pa = pb).
  { destruct G as (Gf & _ & _ & Go). rewrite Gf, Go in Pb. congruence. }
  subst pb.
  pose proof (makePredecessorLists_preserved _ _ Ma) as (Ga2 & _ & Pma & Cla).
  pose proof (makePredecessorLists_preserved _ _ Mb) as (Gb2 & _ & Pmb & Clb).
  destruct (markFeedback_spec a2) as (_ & _ & Ma3 & Ca3 & Fa3 & _).
  destruct (markFeedback_spec b2) as (_ & _ & Mb3 & Cb3 & Fb3 & _).
  split; [rewrite Ma3, Mb3, Pma, Pmb; reflexivity|].
  split; [rewrite Ca3, Cb3, Cla, Clb; reflexivity|].
  intros l Hl.
  pose proof (@makePredecessorLists_agree a W fuel
                (set_paths a pa (buildCycles pa)) (set_paths b pa (buildCycles pa))) as R.
  rewrite Ma, Mb in R. simpl in R.
  destruct R as (Ga & (_ & P & _)); [repeat split | exact G |].
  rewrite Fa3, Fb3.
  - rewrite P; [reflexivity|].
    replace (factors a2) with (factors a) by (symmetry; apply Ga).
    apply (wf_links W); assumption.
  - replace (links b2) with (links a); [assumption|].
    symmetry. eapply same_graph_trans; [exact Gb2|]. exact G.
  - replace (links a2) with (links a); [assumption|]. symmetry; apply Ga.
Qed.

(** ** More fuel does not change a completed run *)

Lemma sproutPathsFrom_fuel (out : Factor -> list Link) (n : nat) :
  forall path pm pm' k,
    sproutPathsFrom n out path pm = Some pm' -> n <= k ->
    sproutPathsFrom k out path pm = Some pm'.
Proof.
  induction n as [|n IH]; intros path pm pm' k E Hk; [discriminate|].
  destruct k as [|k]; [lia|]. simpl in *.
  destruct path as [|p0 rest]; [discriminate|].
  revert E. apply for_each_weaken. intros s l s' _ E.
  destruct (indexOf Nat.eqb (to_factor l) (p0 :: rest) <=? 0)%Z; [|exact E].
  destruct (pm_push _ _ s) as [pm1|]; [|discriminate].
  destruct (indexOf Nat.eqb (to_factor l) (p0 :: rest) <? 0)%Z; [|exact E].
  apply IH with (k := k) in E; [exact E | lia].
Qed.

Lemma buildPaths_fuel (out : Factor -> list Link) (fs : list Factor)
      (n k : nat) (pm : PathMatrix) :
  buildPaths n fs out = Some pm -> n <= k -> buildPaths k fs out = Some pm.
Proof.
  intros E Hk. unfold buildPaths in *. revert E.
  apply for_each_weaken. intros s f s' _.
  apply for_each_weaken. intros s0 l s0' _ E.
  destruct (negb (Nat.eqb f (to_factor l))); [|exact E].
  eapply sproutPathsFrom_fuel; eauto.
Qed.

Lemma setPredecessors_fuel (n : nat) :
  forall this m m' k,
    setPredecessors n this m = Some m' -> n <= k ->
    setPredecessors k this m = Some m'.
Proof.
  induction n as [|n IH]; intros this m m' k E Hk; [discriminate|].
  destruct k as [|k]; [lia|]. simpl in *.
  revert E. apply for_each_weaken. intros s l s' _ E.
  destruct (visited s l); [exact E|].
  destruct (setPredecessors n (from_factor l) _) as [m3|] eqn:R; [|discriminate].
  apply IH with (k := k) in R; [|lia]. rewrite R. exact E.
Qed.

Lemma makePredecessorLists_fuel (n k : nat) (m m' : Model) :
  makePredecessorLists n m = Some m' -> n <= k ->
  makePredecessorLists k m = Some m'.
Proof.
  intros E Hk. unfold makePredecessorLists in *. revert E.
  apply for_each_weaken. intros s f s' _ E.
  eapply setPredecessors_fuel; eauto.
Qed.

Lemma cleanUpFeedbackLinks_fuel (n k : nat) (m m' : Model) :
  cleanUpFeedbackLinks n m = Some m' -> n <= k ->
  cleanUpFeedbackLinks k m = Some m'.
Proof.
  intros E Hk. unfold cleanUpFeedbackLinks, buildPathMatrix in *.
  destruct (buildPaths n (factors m) (outputs m)) as [pm|] eqn:B; [|discriminate].
  rewrite (@buildPaths_fuel _ _ n k pm B Hk).
  destruct (makePredecessorLists n _) as [m2|] eqn:M; [|discriminate].
  rewrite (@makePredecessorLists_fuel n k _ m2 M Hk). exact E.
Qed.

(** ** Termination and idempotence of the recompute *)

Lemma cleanUpFeedbackLinks_total (fuel : nat) (m : Model) :
  wf m ->
  length (links m) < fuel -> length (factors m) < fuel ->
  exists m', cleanUpFeedbackLinks fuel m = Some m'.
Proof.
  intros W Hl Hf. unfold cleanUpFeedbackLinks, buildPathMatrix.
  destruct (@buildPaths_total (outputs m) (factors m)) with (fuel := fuel) (fs := factors m)
    as (pm & ->); [|apply incl_refl|assumption|].
  { intros f l H. destruct (wf_outputs W _ _ H) as [H1 _]. apply (wf_links W); assumption. }
  destruct (@makePredecessorLists_total fuel (set_paths m pm (buildCycles pm)))
    as (m2 & ->); [|exact Hl|eauto].
  simpl. intros f l H. apply (wf_inputs W _ _ H).
Qed.

Lemma cleanUpFeedbackLinks_result (m : Model) :
  wf m ->
  exists m', forall fuel,
    length (links m) < fuel -> length (factors m) < fuel ->
    cleanUpFeedbackLinks fuel m = Some m'.
Proof.
  intros W.
  destruct (@cleanUpFeedbackLinks_total
              (S (Nat.max (length (links m)) (length (factors m)))) m W)
    as (m' & E); [lia | lia |].
  exists m'. intros fuel Hl Hf.
  apply (@cleanUpFeedbackLinks_fuel _ fuel m m' E). lia.
Qed.

Lemma cleanUpFeedbackLinks_idem (fuel : nat) (m m1 m2 : Model) :
  wf m ->
  cleanUpFeedbackLinks fuel m = Some m1 ->
  cleanUpFeedbackLinks fuel m1 = Some m2 ->
  cycle_list m2 = cycle_list m1 /\
  forall l, is_feedback m2 l = is_feedback m1 l.
Proof.
  intros W E1 E2.
  destruct (cleanUpFeedbackLinks_graph _ _ E1) as [G1 _].
  destruct (cleanUpFeedbackLinks_graph _ _ E2) as [_ F2].
  destruct (@cleanUpFeedbackLinks_graph_only fuel m m1 m1 m2 W G1 E1 E2) as (_ & C & F).
  split; [symmetry; assumption|].
  intros l. destruct (in_dec link_eq_dec l (links m)) as [i|i].
  - symmetry. apply F; assumption.
  - apply F2. destruct G1 as (_&->&_). assumption.
Qed.

Lemma deleteFactorLinks_noop (fuel : nat) (m : Model) (node : Factor) :
  deleteFactorLinks fuel m node = Some m.
Proof.
  unfold deleteFactorLinks. generalize (links m). intros ls.
  induction ls as [|l t IH]; simpl; [reflexivity|].
  destruct (0 <=? indexOf link_eqb l (links m))%Z; exact IH.
Qed.

(** ** Properties of the analysis engine *)

(** C10: every path that [buildPathMatrix] records under key [k] begins
    with [k], has at least two elements, joins consecutive elements by
    links of the store and repeats no factor, except that its last
    element may equal its first; every entry of the cycle list is a closed
    walk along stored links. *)
Theorem recorded_paths_are_edge_paths (fuel : nat) (m m' : Model) :
  wf m ->
  buildPathMatrix fuel m = Some m' ->
  (forall k p, recorded (path_matrix m') k p -> edge_path m' k p) /\
  (forall c, In c (cycle_list m') -> closed_walk m' c).
Proof.
  intros W E. unfold buildPathMatrix in E.
  destruct (buildPaths fuel (factors m) (outputs m)) as [pm|] eqn:B; [|discriminate].
  injection E as <-.
  pose proof (@buildPaths_sound m (wf_outputs W) _ _ _ B) as S.
  split; [exact S|].
  simpl. intros c Hc. apply buildCycles_recorded in Hc.
  destruct Hc as (Hcl & k & Hr).
  apply (@edge_path_closed _ k c (S k c Hr) Hcl).
Qed.

(** The ring A -> B -> C -> A with the separate link D -> E. *)
Lemma recorded_paths_are_edge_paths_witness :
  exists m', buildPathMatrix 20 ex_ring = Some m' /\
    (forall k p, recorded (path_matrix m') k p -> edge_path m' k p) /\
    (forall c, In c (cycle_list m') -> closed_walk m' c).
Proof.
  destruct (buildPathMatrix 20 ex_ring) as [m'|] eqn:E;
    [|vm_compute in E; discriminate].
  exists m'. split; [reflexivity|].
  apply (@recorded_paths_are_edge_paths 20 ex_ring m');
    [apply wf_build; reflexivity | exact E].
Defined.

(** C4: on a graph without a directed cycle, a full recompute leaves the
    cycle list empty and the is-feedback flag of every link false. *)
Theorem acyclic_graph_has_no_feedback (fuel : nat) (m m' : Model) :
  wf m -> acyclic m ->
  cleanUpFeedbackLinks fuel m = Some m' ->
  cycle_list m' = [] /\
  forall l, In l (links m') -> is_feedback m' l = false.
Proof.
  intros W A E.
  destruct (cleanUpFeedbackLinks_steps _ _ E) as (pm & m2 & B & M & ->).
  pose proof (makePredecessorLists_preserved _ _ M) as (G2 & _ & _ & C2).
  destruct (markFeedback_spec m2) as (G3 & _ & _ & C3 & F3 & _).
  assert (W1 : wf (set_paths m pm (buildCycles pm)))
    by (eapply wf_same_graph; [|exact W]; repeat split).
  pose proof (@makePredecessorLists_sound _ _ _ W1 M) as S.
  split.
  - rewrite C3, C2. simpl.
    destruct (buildCycles pm) as [|c t] eqn:Ec; [reflexivity|].
    assert (Hc : In c (buildCycles pm)) by (rewrite Ec; simpl; auto).
    apply buildCycles_recorded in Hc. destruct Hc as (Hcl & k & Hr).
    pose proof (@buildPaths_sound m (wf_outputs W) _ _ _ B _ _ Hr) as P.
    destruct (@closed_walk_reaches m c (@edge_path_closed m k c P Hcl)) as (u & Hu).
    destruct (A u Hu).
  - intros l Hl.
    assert (Hl2 : In l (links m2)) by (destruct G3 as (_&<-&_); exact Hl).
    rewrite (F3 l Hl2).
    apply Z.leb_gt. apply (indexOf_neg Nat.eqb Nat.eqb_eq). intros Hp.
    assert (Hlm : In l (links m)) by (destruct G2 as (_&L&_); rewrite L in Hl2; exact Hl2).
    destruct (wf_links W l Hlm) as (Hf & _).
    assert (R : reaches m (to_factor l) (from_factor l)) by (apply (S _ _ Hf Hp)).
    apply (A (to_factor l)).
    apply t_trans with (from_factor l); [exact R|].
    apply t_step. unfold edge. destruct l; exact Hlm.
Qed.

(** The chain A -> B -> C. *)
Lemma acyclic_graph_has_no_feedback_witness :
  exists m', cleanUpFeedbackLinks 20 ex_chain = Some m' /\
    cycle_list m' = [] /\
    forall l, In l (links m') -> is_feedback m' l = false.
Proof.
  destruct (cleanUpFeedbackLinks 20 ex_chain) as [m'|] eqn:E;
    [|vm_compute in E; discriminate].
  exists m'. split; [reflexivity|].
  apply (@acyclic_graph_has_no_feedback 20 ex_chain m');
    [apply wf_build; reflexivity | apply ascending_acyclic; reflexivity | exact E].
Defined.



(** C8: a full recompute on a finite store runs to completion, also when
    the graph has directed cycles: the recursion of [setPredecessors] is
    entered only through a link not yet marked, so its depth is bounded by
    the number of links, and [sproutPathsFrom] only grows a path by a
    factor it does not contain, so its depth is bounded by the number of
    factors.  Any recursion budget above these two numbers lets the run
    complete, always with the same result. *)
Theorem recompute_terminates (m : Model) :
  wf m ->
  exists m', forall fuel,
    length (links m) < fuel -> length (factors m) < fuel ->
    cleanUpFeedbackLinks fuel m = Some m'.
Proof. apply cleanUpFeedbackLinks_result. Qed.

(** A store whose graph has a directed cycle. *)
Lemma recompute_terminates_witness :
  exists m', forall fuel,
    length (links ex_ring) < fuel -> length (factors ex_ring) < fuel ->
    cleanUpFeedbackLinks fuel ex_ring = Some m'.
Proof.
  apply (@recompute_terminates ex_ring). apply wf_build; reflexivity.
Defined.

(** C9: a second full recompute directly after a first one, with no
    change to the graph in between, gives the same cycle list and the same
    is-feedback flag on every link. *)
Theorem recompute_idempotent (fuel : nat) (m m1 m2 : Model) :
  wf m ->
  cleanUpFeedbackLinks fuel m = Some m1 ->
  cleanUpFeedbackLinks fuel m1 = Some m2 ->
  cycle_list m2 = cycle_list m1 /\
  forall l, is_feedback m2 l = is_feedback m1 l.
Proof. apply cleanUpFeedbackLinks_idem. Qed.

(** Two recomputes in a row on the ring. *)
Lemma recompute_idempotent_witness :
  exists m1 m2,
    cleanUpFeedbackLinks 20 ex_ring = Some m1 /\
    cleanUpFeedbackLinks 20 m1 = Some m2 /\
    cycle_list m2 = cycle_list m1 /\
    forall l, is_feedback m2 l = is_feedback m1 l.
Proof.
  destruct (cleanUpFeedbackLinks 20 ex_ring) as [m1|] eqn:E1;
    [|vm_compute in E1; discriminate].
  destruct (@cleanUpFeedbackLinks_total 20 m1) as (m2 & E2).
  - apply (wf_same_graph (a := ex_ring));
      [apply same_graph_sym; apply (cleanUpFeedbackLinks_graph _ _ E1)
      | apply wf_build; reflexivity].
  - replace (links m1) with (links ex_ring)
      by (symmetry; apply (cleanUpFeedbackLinks_graph _ _ E1)).
    vm_compute; lia.
  - replace (factors m1) with (factors ex_ring)
      by (symmetry; apply (cleanUpFeedbackLinks_graph _ _ E1)).
    vm_compute; lia.
  - exists m1, m2. split; [reflexivity|]. split; [exact E2|].
    apply (@recompute_idempotent 20 ex_ring m1 m2);
      [apply wf_build; reflexivity | exact E1 | exact E2].
Defined.

(** C6 (as the claim states it): [deleteLink] would leave the predecessor
    lists, the cycle list and the is-feedback flags of the remaining links
    as they were.  On the analysed store A -> B, B -> A, deleting A -> B
    empties the cycle list, clears the flag of the remaining link B -> A
    and shortens the predecessor list of A. *)
Lemma deleteLink_changes_derived_data :
  cycle_list ex_mutual_analysed = [[0; 1; 0]] /\
  is_feedback ex_mutual_analysed (mkLink 1 0) = true /\
  predecessors ex_mutual_analysed 0 = [1; 0] /\
  option_map (fun m' => (links m', cycle_list m', is_feedback m' (mkLink 1 0),
                         predecessors m' 0))
             (deleteLink 20 ex_mutual_analysed (mkLink 0 1))
  = Some ([mkLink 1 0], [], false, [1]).
Proof. repeat split; vm_compute; reflexivity. Qed.

(** C6 (amended): [deleteLink] takes the link out of its source's
    outgoing list, its target's incoming list and the link collection,
    leaving every other link in place, and then runs the full recompute
    itself: the store it returns is the analysed reduced graph, on which a
    further recompute changes neither the cycle list nor any is-feedback
    flag. *)
Theorem deleteLink_removes_and_recomputes (fuel : nat) (m m' : Model) (l : Link) :
  wf m ->
  deleteLink fuel m l = Some m' ->
  (forall k, In k (links m') <-> In k (links m) /\ k <> l) /\
  (forall f k, In k (outputs m' f) <-> In k (outputs m f) /\ k <> l) /\
  (forall f k, In k (inputs m' f) <-> In k (inputs m f) /\ k <> l) /\
  cleanUpFeedbackLinks fuel (removeLink m l) = Some m' /\
  (forall m'', cleanUpFeedbackLinks fuel m' = Some m'' ->
     cycle_list m'' = cycle_list m' /\
     forall k, is_feedback m'' k = is_feedback m' k).
Proof.
  intros W E. unfold deleteLink in E.
  destruct (cleanUpFeedbackLinks_graph _ _ E) as [(Gf & Gl & Gi & Go) _].
  destruct (removeLink_spec l W) as (_ & Rl & Ro & Ri).
  rewrite Gl, Gi, Go.
  split; [exact Rl|]. split; [exact Ro|]. split; [exact Ri|]. split; [exact E|].
  intros m'' E'.
  apply (@cleanUpFeedbackLinks_idem fuel (removeLink m l) m' m'');
    [apply wf_removeLink; exact W | exact E | exact E'].
Qed.

(** Deleting A -> B from the store A -> B, B -> A. *)
Lemma deleteLink_removes_and_recomputes_witness :
  exists m', deleteLink 20 ex_mutual (mkLink 0 1) = Some m' /\
    (forall k, In k (links m') <-> In k (links ex_mutual) /\ k <> mkLink 0 1) /\
    forall m'', cleanUpFeedbackLinks 20 m' = Some m'' ->
      cycle_list m'' = cycle_list m' /\
      forall k, is_feedback m'' k = is_feedback m' k.
Proof.
  destruct (deleteLink 20 ex_mutual (mkLink 0 1)) as [m'|] eqn:E;
    [|vm_compute in E; discriminate].
  exists m'. split; [reflexivity|].
  destruct (@deleteLink_removes_and_recomputes 20 ex_mutual m' (mkLink 0 1))
    as (H1 & _ & _ & _ & H5);
    [apply wf_build; reflexivity | exact E | split; assumption].
Defined.

(** C1 (evaluation): after a full recompute of A -> B, A -> C, B -> A the
    stored link B -> A is flagged as feedback, while no recorded cycle
    candidate has B -> A as its closing step. *)
Theorem feedback_flag_without_closing_candidate :
  option_map
    (fun m' => (existsb (link_eqb (mkLink 1 0)) (links m'),
                is_feedback m' (mkLink 1 0),
                candidates_closing_with (path_matrix m') (mkLink 1 0)))
    (cleanUpFeedbackLinks 20 ex_fork)
  = Some (true, true, []).
Proof. vm_compute. reflexivity. Qed.

(** C2 (evaluation): factor A has the outgoing links A -> B and A -> C;
    after [buildPathMatrix] the list kept under A holds the path [A; C]
    only: the paths grown from A -> B are gone. *)
Theorem buildPathMatrix_keeps_last_link_only :
  outputs ex_fork 0 = [mkLink 0 1; mkLink 0 2] /\
  option_map path_matrix (buildPathMatrix 20 ex_fork)
  = Some [(0, [[0; 2]]); (1, [[1; 0]; [1; 0; 1]; [1; 0; 2]])].
Proof. split; vm_compute; reflexivity. Qed.

(** C3 (evaluation): in the ring F -> N -> M -> G -> F with tail H -> G,
    H reaches M, yet after a full recompute H is missing from the
    predecessors of M; with the same factors and links, H -> G added
    before M -> G, H is listed. *)
Theorem predecessors_incomplete_and_order_dependent :
  reaches ex_ring_tail 4 1 /\
  option_map (fun m' => predecessors m' 1) (cleanUpFeedbackLinks 20 ex_ring_tail)
  = Some [2; 0; 3; 1] /\
  (forall u v, edge ex_ring_tail u v <-> edge ex_ring_tail' u v) /\
  factors ex_ring_tail = factors ex_ring_tail' /\
  option_map (fun m' => predecessors m' 1) (cleanUpFeedbackLinks 20 ex_ring_tail')
  = Some [2; 0; 3; 4; 1].
Proof.
  split; [|split; [|split; [|split]]]; try (vm_compute; reflexivity).
  - apply t_trans with 3; [apply t_step; vm_compute; tauto|].
    apply t_trans with 0; [apply t_step; vm_compute; tauto|].
    apply t_trans with 2; apply t_step; vm_compute; tauto.
  - intros u v. unfold edge. vm_compute. tauto.
Qed.

(** C5 (evaluation): [deleteFactor] deletes no link at all, whatever the
    store and the factor: its link loop leaves the store as it is, and the
    call then ends by an exception before the factor is deleted, with the
    store unchanged.  Deleting A from the store A -> B leaves both A and
    the link A -> B, which has A as its source, in the store. *)
Theorem deleteFactor_leaves_links :
  (forall fuel m node, deleteFactorLinks fuel m node = Some m) /\
  (forall fuel m node, deleteFactor fuel m node = Some (Thrown m)) /\
  deleteFactor 20 ex_pair 0 = Some (Thrown ex_pair) /\
  links ex_pair = [mkLink 0 1] /\ factors ex_pair = [0; 1] /\
  inputs ex_pair 1 = [mkLink 0 1] /\ outputs ex_pair 0 = [mkLink 0 1].
Proof.
  split; [|split].
  - apply deleteFactorLinks_noop.
  - intros fuel m node. unfold deleteFactor.
    rewrite deleteFactorLinks_noop. reflexivity.
  - unfold deleteFactor. rewrite deleteFactorLinks_noop.
    repeat split.
Qed.

(** ** Further properties: the graph store *)

(** X1: adding a link between an ordered pair of factors a second time
    changes nothing: the existing link is kept and no second link object
    enters the store. *)
Theorem addLink_twice (m : Model) (a b : Factor) :
  addLink (addLink m a b) a b = addLink m a b.
Proof.
  unfold addLink at 1.
  assert (H : (0 <=? indexOf link_eqb (mkLink a b) (links (addLink m a b)))%Z = true).
  { apply Z.leb_le. apply (indexOf_found link_eqb link_eqb_eq).
    unfold addLink.
    destruct (0 <=? indexOf link_eqb (mkLink a b) (links m))%Z eqn:E.
    - apply Z.leb_le in E. apply (indexOf_found link_eqb link_eqb_eq) in E. exact E.
    - simpl. apply in_app_iff; simpl; auto. }
  rewrite H. reflexivity.
Qed.

(** X2: on a store that satisfies the store invariant, adding a link
    between two stored factors keeps the invariant, leaves the factors
    alone, and adds exactly that link to the link collection, to the
    outgoing list of its source and to the incoming list of its target;
    a link collection without duplicates stays so. *)
Theorem addLink_keeps_invariant (m : Model) (a b : Factor) :
  wf m -> In a (factors m) -> In b (factors m) ->
  wf (addLink m a b) /\
  factors (addLink m a b) = factors m /\
  (forall l, In l (links (addLink m a b)) <-> In l (links m) \/ l = mkLink a b) /\
  (forall f l, In l (outputs (addLink m a b) f) <->
               In l (outputs m f) \/ (f = a /\ l = mkLink a b)) /\
  (forall f l, In l (inputs (addLink m a b) f) <->
               In l (inputs m f) \/ (f = b /\ l = mkLink a b)) /\
  (NoDup (links m) -> NoDup (links (addLink m a b))).
Proof.
  intros W Ha Hb.
  split; [apply wf_addLink; assumption|].
  split; [apply addLink_factors|].
  unfold addLink.
  destruct (0 <=? indexOf link_eqb (mkLink a b) (links m))%Z eqn:E.
  - apply Z.leb_le in E. apply (indexOf_found link_eqb link_eqb_eq) in E.
    destruct (wf_links W _ E) as (_ & _ & Ho & Hi). simpl in Ho, Hi.
    repeat split; try tauto.
    + intros [H|H]; [assumption | subst; assumption].
    + intros [H|[-> ->]]; assumption.
    + intros [H|[-> ->]]; assumption.
  - apply Z.leb_gt in E. apply (indexOf_neg link_eqb link_eqb_eq) in E.
    simpl. split; [|split; [|split]].
    + intros l. rewrite in_app_iff; simpl. intuition congruence.
    + intros f l. destruct (Nat.eqb_spec f a) as [->|N].
      * rewrite in_app_iff; simpl. intuition congruence.
      * intuition congruence.
    + intros f l. destruct (Nat.eqb_spec f b) as [->|N].
      * rewrite in_app_iff; simpl. intuition congruence.
      * intuition congruence.
    + intros N. apply NoDup_snoc; assumption.
Qed.

(** The store A -> B, and the link B -> A. *)
Lemma addLink_keeps_invariant_witness :
  wf (addLink ex_pair 1 0) /\
  forall l, In l (links (addLink ex_pair 1 0)) <-> In l (links ex_pair) \/ l = mkLink 1 0.
Proof.
  destruct (@addLink_keeps_invariant ex_pair 1 0) as (H1 & _ & H3 & _);
    [apply wf_build; reflexivity | vm_compute; tauto | vm_compute; tauto |].
  split; assumption.
Defined.

Lemma splice_first_snoc (A : Type) (eqb : A -> A -> bool)
      (eqb_eq : forall a b, eqb a b = true <-> a = b) (x : A) (l : list A) :
  ~ In x l -> splice_first eqb x (l ++ [x]) = l.
Proof.
  induction l as [|y t IH]; simpl; intros N.
  - assert (E : eqb x x = true) by (apply eqb_eq; reflexivity). rewrite E. reflexivity.
  - destruct (eqb y x) eqn:E.
    + apply eqb_eq in E. subst; tauto.
    + f_equal. apply IH. tauto.
Qed.

Lemma splice_first_absent (A : Type) (eqb : A -> A -> bool)
      (eqb_eq : forall a b, eqb a b = true <-> a = b) (x : A) (l : list A) :
  ~ In x l -> splice_first eqb x l = l.
Proof.
  induction l as [|y t IH]; simpl; intros N; [reflexivity|].
  destruct (eqb y x) eqn:E.
  - apply eqb_eq in E. subst; tauto.
  - f_equal. apply IH. tauto.
Qed.

Lemma filter_keep_all (A : Type) (f : A -> bool) (l : list A) :
  (forall x, In x l -> f x = true) -> filter f l = l.
Proof.
  induction l as [|y t IH]; simpl; intros H; [reflexivity|].
  rewrite (H y) by auto. f_equal. apply IH. auto.
Qed.

Lemma filter_out_one (A : Type) (eqb : A -> A -> bool)
      (eqb_eq : forall x y, eqb x y = true <-> x = y) (x : A) (l : list A) :
  NoDup l -> In x l ->
  S (length (filter (fun k => negb (eqb k x)) l)) = length l.
Proof.
  induction 1 as [|a t Na Nt IH]; intros Hx; [destruct Hx|].
  simpl. destruct (eqb a x) eqn:Ea; simpl.
  - apply eqb_eq in Ea. subst a. f_equal. f_equal.
    apply filter_keep_all. intros y Hy. apply negb_true_iff.
    destruct (eqb y x) eqn:Ey; [|reflexivity].
    apply eqb_eq in Ey. subst y. contradiction.
  - f_equal. apply IH. destruct Hx as [->|Hx]; [|exact Hx].
    assert (T : eqb x x = true) by (apply eqb_eq; reflexivity). congruence.
Qed.

(** X3: removing a link that was just added to a store in which it was
    absent gives back the graph as it was: the same factors, the same
    link collection and the same adjacency lists, in the same order. *)
Theorem removeLink_after_addLink (m : Model) (a b : Factor) :
  wf m -> ~ In (mkLink a b) (links m) ->
  factors (removeLink (addLink m a b) (mkLink a b)) = factors m /\
  links (removeLink (addLink m a b) (mkLink a b)) = links m /\
  (forall f, outputs (removeLink (addLink m a b) (mkLink a b)) f = outputs m f) /\
  (forall f, inputs (removeLink (addLink m a b) (mkLink a b)) f = inputs m f).
Proof.
  intros W N.
  assert (No : ~ In (mkLink a b) (outputs m a))
    by (intros C; destruct (wf_outputs W _ _ C); tauto).
  assert (Ni : ~ In (mkLink a b) (inputs m b))
    by (intros C; destruct (wf_inputs W _ _ C); tauto).
  unfold addLink.
  apply (indexOf_neg link_eqb link_eqb_eq) in N as E. apply Z.leb_gt in E.
  rewrite E. unfold removeLink. simpl.
  split; [reflexivity|]. split; [|split].
  - rewrite filter_app. simpl. rewrite link_eqb_refl. simpl.
    rewrite app_nil_r. apply filter_keep_all.
    intros x Hx. apply negb_true_iff, link_eqb_neq. intros ->. tauto.
  - intros f. rewrite Nat.eqb_refl.
    destruct (Nat.eqb_spec f a) as [->|Nf]; [|reflexivity].
    apply (splice_first_snoc link_eqb link_eqb_eq); assumption.
  - intros f. rewrite Nat.eqb_refl.
    destruct (Nat.eqb_spec f b) as [->|Nf]; [|reflexivity].
    apply (splice_first_snoc link_eqb link_eqb_eq); assumption.
Qed.

(** Adding and removing B -> A on the store A -> B. *)
Lemma removeLink_after_addLink_witness :
  links (removeLink (addLink ex_pair 1 0) (mkLink 1 0)) = links ex_pair /\
  forall f, outputs (removeLink (addLink ex_pair 1 0) (mkLink 1 0)) f = outputs ex_pair f.
Proof.
  destruct (@removeLink_after_addLink ex_pair 1 0) as (_ & H2 & H3 & _);
    [apply wf_build; reflexivity | vm_compute; intuition discriminate |].
  split; assumption.
Defined.

(** X4: deleting a stored link keeps the store invariant and the
    factors; when the link collection has no duplicates, it still has none
    afterwards and holds exactly one link fewer. *)
Theorem deleteLink_keeps_invariant (fuel : nat) (m m' : Model) (l : Link) :
  wf m -> In l (links m) ->
  deleteLink fuel m l = Some m' ->
  wf m' /\ factors m' = factors m /\
  (NoDup (links m) ->
   NoDup (links m') /\ S (length (links m')) = length (links m)).
Proof.
  intros W Hl E. unfold deleteLink in E.
  destruct (cleanUpFeedbackLinks_graph _ _ E) as [(Gf & Gl & Gi & Go) _].
  split.
  - apply (wf_same_graph (a := removeLink m l));
      [apply same_graph_sym; repeat split; assumption | apply wf_removeLink; exact W].
  - split; [rewrite Gf; reflexivity|].
    intros N. rewrite Gl. unfold removeLink; simpl.
    split; [apply NoDup_filter; exact N|].
    apply (filter_out_one link_eqb link_eqb_eq); assumption.
Qed.

(** Deleting the stored link A -> B from the store A -> B, B -> A. *)
Lemma deleteLink_keeps_invariant_witness :
  exists m', deleteLink 20 ex_mutual (mkLink 0 1) = Some m' /\
    wf m' /\ S (length (links m')) = length (links ex_mutual).
Proof.
  destruct (deleteLink 20 ex_mutual (mkLink 0 1)) as [m'|] eqn:E;
    [|vm_compute in E; discriminate].
  exists m'. split; [reflexivity|].
  destruct (@deleteLink_keeps_invariant 20 ex_mutual m' (mkLink 0 1)) as (H1 & _ & H3);
    [apply wf_build; reflexivity | vm_compute; tauto | exact E |].
  split; [assumption|]. apply H3.
  repeat constructor; vm_compute; intuition discriminate.
Defined.

(** ** Further properties: predecessor lists and feedback flags *)

Lemma for_each_progress (A S : Type) (R : S -> S -> Prop) (Q : A -> S -> Prop)
      (body : S -> A -> option S) (l : list A) (s0 : S) :
  (forall s, R s s) ->
  (forall a b c, R a b -> R b c -> R a c) ->
  (forall a s s', Q a s -> R s s' -> Q a s') ->
  (forall s a s', In a l -> R s0 s -> body s a = Some s' -> R s s' /\ Q a s') ->
  forall s', for_each body l s0 = Some s' ->
             R s0 s' /\ forall a, In a l -> Q a s'.
Proof.
  intros Rrefl Rtrans Qst Hb.
  cut (forall s s', R s0 s -> for_each body l s = Some s' ->
                    R s s' /\ forall a, In a l -> Q a s').
  { intros H s' E. apply H; auto. }
  revert Hb. induction l as [|a t IH]; simpl; intros Hb s s' Rs E.
  - injection E as <-. split; [apply Rrefl | tauto].
  - destruct (body s a) as [s1|] eqn:B; [|discriminate].
    destruct (Hb s a s1 (or_introl eq_refl) Rs B) as [R1 Q1].
    destruct (IH (fun s a s' H => Hb s a s' (or_intror H)) s1 s') as [R2 Q2];
      [eapply Rtrans; eauto | assumption |].
    split; [eapply Rtrans; eauto|].
    intros x [<-|Hx]; [eapply Qst; eauto | auto].
Qed.

Lemma setPredecessors_inv (I : Model -> Prop) :
  (forall s l, I s -> I (set_visited s l true)) ->
  (forall s this f, I s -> I (push_new s this f)) ->
  forall fuel this s s', I s -> setPredecessors fuel this s = Some s' -> I s'.
Proof.
  intros Hv Hp. induction fuel as [|n IH]; intros this s s' Hs E; [discriminate|].
  simpl in E. revert E. apply for_each_inv with (I := I); [|assumption].
  intros x l x' _ Ix E.
  destruct (if visited x l then _ else _) as [m3|] eqn:R; [|discriminate].
  injection E as <-.
  apply fold_left_inv; [intros; apply Hp; assumption|].
  destruct (visited x l); [injection R as <-; auto | eapply IH; [|exact R]; auto].
Qed.

Lemma grows_refl (s : Model) : grows s s.
Proof. intros n; apply incl_refl. Qed.

Lemma grows_trans (a b c : Model) : grows a b -> grows b c -> grows a c.
Proof. intros H1 H2 n. eapply incl_tran; [apply H1 | apply H2]. Qed.

Lemma push_new_grows (s : Model) (this f : Factor) : grows s (push_new s this f).
Proof. intros n x Hx. apply push_new_In. auto. Qed.

Lemma push_all_grows (this : Factor) (fs : list Factor) (s : Model) :
  grows s (fold_left (fun s f => push_new s this f) fs s).
Proof.
  apply fold_left_inv with (I := grows s); [|apply grows_refl].
  intros x a _ G. eapply grows_trans; [exact G | apply push_new_grows].
Qed.

Lemma push_all_In (this : Factor) (fs : list Factor) :
  forall s f, In f fs ->
    In f (predecessors (fold_left (fun s f => push_new s this f) fs s) this).
Proof.
  induction fs as [|a t IH]; simpl; intros s f Hf; [tauto|].
  destruct Hf as [->|Hf]; [|auto].
  apply (push_all_grows this t (push_new s this f)).
  apply push_new_In. auto.
Qed.

Lemma setPredecessors_grows (fuel : nat) (this : Factor) (s s' : Model) :
  setPredecessors fuel this s = Some s' -> grows s s'.
Proof.
  apply (@setPredecessors_inv (grows s)); [| |apply grows_refl].
  - intros x l G. exact G.
  - intros x t f G. eapply grows_trans; [exact G | apply push_new_grows].
Qed.

Lemma push_new_nodup (s : Model) (this f n : Factor) :
  NoDup (predecessors s n) -> NoDup (predecessors (push_new s this f) n).
Proof.
  intros N. unfold push_new.
  destruct (indexOf Nat.eqb f (predecessors s this) <? 0)%Z eqn:E; [|assumption].
  simpl. destruct (Nat.eqb_spec n this) as [->|Nn]; [|assumption].
  apply NoDup_snoc; [assumption|].
  apply Z.ltb_lt in E. apply (indexOf_neg Nat.eqb Nat.eqb_eq) in E. assumption.
Qed.

Lemma setPredecessors_direct (g : Model) (fuel : nat) (this : Factor) (s s' : Model) :
  same_graph s g ->
  setPredecessors fuel this s = Some s' ->
  forall l, In l (inputs g this) -> In (from_factor l) (predecessors s' this).
Proof.
  intros G E. destruct fuel as [|n]; [discriminate|]. simpl in E.
  replace (inputs s this) with (inputs g this) in E by (symmetry; destruct G as (_&_&->&_); reflexivity).
  apply (@for_each_progress Link Model grows
           (fun l x => In (from_factor l) (predecessors x this))) in E.
  - apply E.
  - apply grows_refl.
  - apply grows_trans.
  - intros a x x' H Gx. apply (Gx this). exact H.
  - intros x l x' _ _ B.
    set (m2 := push_new (set_visited x l true) this (from_factor l)) in *.
    assert (G2 : grows x m2) by (apply (push_new_grows (set_visited x l true))).
    assert (H2 : In (from_factor l) (predecessors m2 this))
      by (apply push_new_In; auto).
    destruct (if visited x l then Some m2 else setPredecessors n (from_factor l) m2)
      as [m3|] eqn:R; [|discriminate].
    injection B as <-.
    assert (G3 : grows m2 m3).
    { destruct (visited x l);
        [injection R as <-; apply grows_refl | eapply setPredecessors_grows; eauto]. }
    pose proof (push_all_grows this (predecessors m3 (from_factor l)) m3) as G4.
    split.
    + eapply grows_trans; [exact G2|]. eapply grows_trans; eauto.
    + apply (G4 this). apply (G3 this). exact H2.
Qed.

Lemma makePredecessorLists_start (m : Model) :
  let m2 := fold_left (fun s l => set_visited s l false)
              (links (fold_left (fun s f => set_predecessors s f []) (factors m) m))
              (fold_left (fun s f => set_predecessors s f []) (factors m) m) in
  same_graph m2 m /\
  (forall f, In f (factors m) -> predecessors m2 f = []) /\
  (forall l, In l (links m) -> visited m2 l = false).
Proof.
  set (m1 := fold_left (fun s f => set_predecessors s f []) (factors m) m).
  destruct (reset_predecessors_spec (factors m) m) as (P1 & _ & Z1 & _). fold m1 in P1, Z1.
  destruct (reset_visited_spec (links m1) m1) as (P2 & E2 & V2 & _).
  cbv zeta. split; [eapply same_graph_trans; [apply P2 | apply P1]|]. split.
  - intros f Hf. rewrite E2. auto.
  - intros l Hl. apply V2. destruct P1 as ((_&->&_)&_). exact Hl.
Qed.

Lemma makePredecessorLists_nodup (fuel : nat) (m m' : Model) :
  makePredecessorLists fuel m = Some m' ->
  forall n, In n (factors m) -> NoDup (predecessors m' n).
Proof.
  unfold makePredecessorLists.
  destruct (makePredecessorLists_start m) as (G & Z & _).
  set (m2 := fold_left _ (links _) _) in *.
  intros E n Hn. revert E.
  apply for_each_inv with (I := fun s => NoDup (predecessors s n)).
  - intros s f s' _ Hs E. revert E.
    apply (@setPredecessors_inv (fun s => NoDup (predecessors s n))); auto.
    intros; apply push_new_nodup; assumption.
  - rewrite (Z n Hn). constructor.
Qed.

Lemma makePredecessorLists_direct (fuel : nat) (m m' : Model) :
  makePredecessorLists fuel m = Some m' ->
  forall n l, In n (factors m) -> In l (inputs m n) ->
              In (from_factor l) (predecessors m' n).
Proof.
  unfold makePredecessorLists.
  destruct (makePredecessorLists_start m) as (G & _ & _).
  set (m2 := fold_left _ (links _) _) in *.
  replace (factors m2) with (factors m) by (symmetry; apply G).
  intros E n l Hn Hl.
  apply (@for_each_progress Factor Model
           (fun a b => same_graph a m -> same_graph b m /\ grows a b)
           (fun f x => same_graph x m /\
                       forall l, In l (inputs m f) -> In (from_factor l) (predecessors x f)))
    in E.
  - destruct E as [_ E]. apply (E n Hn); assumption.
  - intros s Gs. split; [assumption | apply grows_refl].
  - intros a b c H1 H2 Ga. destruct (H1 Ga) as [Gb G1]. destruct (H2 Gb) as [Gc G2].
    split; [assumption | eapply grows_trans; eauto].
  - intros f x x' [Gx H] Rx. destruct (Rx Gx) as [Gx' Gr].
    split; [assumption|]. intros k Hk. apply (Gr f). auto.
  - intros s f s' _ Rs B.
    destruct (Rs G) as [Gs _].
    assert (Gs' : same_graph s' m).
    { apply setPredecessors_preserved in B. eapply same_graph_trans; [apply B | exact Gs]. }
    split; [intros _; split; [assumption | eapply setPredecessors_grows; eauto]|].
    split; [assumption|]. apply (@setPredecessors_direct m fuel f s s' Gs B).
Qed.

(** X6: a full recompute never touches the graph: factors, links and both
    adjacency lists of every factor are as before, and so is the
    is-feedback flag of any link that is not in the link collection. *)
Theorem recompute_keeps_graph (fuel : nat) (m m' : Model) :
  cleanUpFeedbackLinks fuel m = Some m' ->
  factors m' = factors m /\ links m' = links m /\
  inputs m' = inputs m /\ outputs m' = outputs m /\
  forall l, ~ In l (links m) -> is_feedback m' l = is_feedback m l.
Proof.
  intros E. destruct (cleanUpFeedbackLinks_graph _ _ E) as [(H1 & H2 & H3 & H4) H5].
  repeat split; assumption.
Qed.

(** Recompute of the ring with the separate link. *)
Lemma recompute_keeps_graph_witness :
  exists m', cleanUpFeedbackLinks 20 ex_ring = Some m' /\
    factors m' = factors ex_ring /\ links m' = links ex_ring.
Proof.
  destruct (cleanUpFeedbackLinks 20 ex_ring) as [m'|] eqn:E;
    [|vm_compute in E; discriminate].
  exists m'. split; [reflexivity|].
  destruct (@recompute_keeps_graph 20 ex_ring m' E) as (H1 & H2 & _).
  split; assumption.
Defined.

(** X7: after a full recompute every factor listed as a predecessor of a
    stored factor does reach it along stored links, the list of a stored
    factor has no duplicates, and it holds the source of each of the
    factor's incoming links. *)
Theorem predecessors_sound_and_direct (fuel : nat) (m m' : Model) :
  wf m ->
  cleanUpFeedbackLinks fuel m = Some m' ->
  forall n, In n (factors m) ->
    (forall a, In a (predecessors m' n) -> reaches m a n) /\
    NoDup (predecessors m' n) /\
    (forall l, In l (inputs m n) -> In (from_factor l) (predecessors m' n)).
Proof.
  intros W E n Hn.
  destruct (cleanUpFeedbackLinks_steps _ _ E) as (pm & m2 & _ & M & ->).
  destruct (markFeedback_spec m2) as (_ & -> & _).
  assert (W1 : wf (set_paths m pm (buildCycles pm)))
    by (eapply wf_same_graph; [|exact W]; repeat split).
  split; [|split].
  - intros a Ha. apply (@makePredecessorLists_sound _ _ _ W1 M n a Hn Ha).
  - apply (@makePredecessorLists_nodup _ _ _ M n Hn).
  - intros l Hl. apply (@makePredecessorLists_direct _ _ _ M n l Hn Hl).
Qed.

(** The ring with a tail, where the lists are incomplete but sound. *)
Lemma predecessors_sound_and_direct_witness :
  exists m', cleanUpFeedbackLinks 20 ex_ring_tail = Some m' /\
    (forall a, In a (predecessors m' 1) -> reaches ex_ring_tail a 1) /\
    NoDup (predecessors m' 1).
Proof.
  destruct (cleanUpFeedbackLinks 20 ex_ring_tail) as [m'|] eqn:E;
    [|vm_compute in E; discriminate].
  exists m'. split; [reflexivity|].
  destruct (@predecessors_sound_and_direct 20 ex_ring_tail m') with (n := 1)
    as (H1 & H2 & _);
    [apply wf_build; reflexivity | exact E | vm_compute; tauto |].
  split; assumption.
Defined.

(** X8: after a full recompute a stored link that is flagged as feedback
    lies on a directed cycle (its target reaches its source), and a stored
    link whose reverse link is stored too, in particular a self-loop, is
    always flagged. *)
Theorem feedback_flag_sound (fuel : nat) (m m' : Model) :
  wf m ->
  cleanUpFeedbackLinks fuel m = Some m' ->
  forall u v, In (mkLink u v) (links m) ->
    (is_feedback m' (mkLink u v) = true -> reaches m v u /\ reaches m u u) /\
    (In (mkLink v u) (links m) -> is_feedback m' (mkLink u v) = true).
Proof.
  intros W E u v Hl.
  destruct (cleanUpFeedbackLinks_steps _ _ E) as (pm & m2 & _ & M & ->).
  destruct (markFeedback_spec m2) as (_ & _ & _ & _ & F & _).
  pose proof (makePredecessorLists_preserved _ _ M) as ((_ & L2 & _) & _).
  assert (W1 : wf (set_paths m pm (buildCycles pm)))
    by (eapply wf_same_graph; [|exact W]; repeat split).
  destruct (wf_links W _ Hl) as (Hu & _). simpl in Hu.
  rewrite (F (mkLink u v)) by (rewrite L2; exact Hl). simpl.
  split.
  - intros T. apply Z.leb_le in T. apply (indexOf_found Nat.eqb Nat.eqb_eq) in T.
    assert (R : reaches m v u) by (apply (@makePredecessorLists_sound _ _ _ W1 M u v Hu T)).
    split; [exact R|].
    apply t_trans with v; [apply t_step; exact Hl | exact R].
  - intros Hr. apply Z.leb_le. apply (indexOf_found Nat.eqb Nat.eqb_eq).
    destruct (wf_links W _ Hr) as (_ & _ & _ & Hi). simpl in Hi.
    apply (@makePredecessorLists_direct _ _ _ M u (mkLink v u) Hu Hi).
Qed.

(** The two links of the store A -> B, B -> A. *)
Lemma feedback_flag_sound_witness :
  exists m', cleanUpFeedbackLinks 20 ex_mutual = Some m' /\
    is_feedback m' (mkLink 0 1) = true.
Proof.
  destruct (cleanUpFeedbackLinks 20 ex_mutual) as [m'|] eqn:E;
    [|vm_compute in E; discriminate].
  exists m'. split; [reflexivity|].
  destruct (@feedback_flag_sound 20 ex_mutual m') with (u := 0) (v := 1) as (_ & H);
    [apply wf_build; reflexivity | exact E | vm_compute; tauto |].
  apply H. vm_compute; tauto.
Defined.

(** ** Further properties: exact predecessor lists on acyclic graphs *)

Lemma advance_refl (g s : Model) : same_graph s g -> advance g s s.
Proof.
  intros G. split; [assumption|]. split; [apply grows_refl | auto].
Qed.

Lemma complete_grows (g s s' : Model) (n : Factor) :
  complete g s n -> grows s s' -> complete g s' n.
Proof. intros C G a Ha. apply (G n). auto. Qed.

Lemma advance_trans (g a b c : Model) :
  advance g a b -> advance g b c -> advance g a c.
Proof.
  intros (_ & G1 & V1) (G & G2 & V2).
  split; [assumption|]. split; [eapply grows_trans; eauto|].
  intros l Hl Hv. destruct (V2 l Hl Hv) as [Hb|Hc]; [|auto].
  destruct (V1 l Hl Hb) as [Ha|Hc]; [auto|].
  right. eapply complete_grows; eauto.
Qed.

Lemma settled_advance (g s s' : Model) (x : Factor) :
  settled g s x -> advance g s s' -> settled g s' x.
Proof.
  intros S (_ & G & V) l Hl Hv Hx.
  destruct (V l Hl Hv) as [Hs|Hc]; [|assumption].
  eapply complete_grows; [apply S; eauto | exact G].
Qed.

Section Acyclic.
Variable g : Model.
Hypothesis Wg : wf g.
Hypothesis Ag : acyclic g.

Lemma reaches_last_step (a n : Factor) :
  reaches g a n ->
  exists l, In l (inputs g n) /\ (a = from_factor l \/ reaches g a (from_factor l)).
Proof.
  intros H. apply clos_trans_tn1 in H.
  assert (K : forall y, edge g y n -> In (mkLink y n) (inputs g n)).
  { intros y Hy. destruct (wf_links Wg _ Hy) as (_ & _ & _ & Hi). exact Hi. }
  inversion H as [He|y z He Hr]; subst.
  - exists (mkLink a n). split; [apply K; assumption | left; reflexivity].
  - exists (mkLink y n). split; [apply K; assumption|].
    right. apply clos_tn1_trans. exact Hr.
Qed.

Lemma setPredecessors_complete (fuel : nat) :
  forall this s s',
    same_graph s g -> settled g s this ->
    setPredecessors fuel this s = Some s' ->
    advance g s s' /\ complete g s' this.
Proof.
  induction fuel as [|n IH]; intros this s s' G S E; [discriminate|].
  simpl in E.
  replace (inputs s this) with (inputs g this) in E
    by (symmetry; destruct G as (_&_&->&_); reflexivity).
  apply (@for_each_progress Link Model
           (fun a b => a = b \/ advance g a b)
           (fun l x => In (from_factor l) (predecessors x this) /\
                       forall a, reaches g a (from_factor l) ->
                                 In a (predecessors x this))) in E.
  - destruct E as [R Q].
    split; [destruct R as [<-|R]; [apply advance_refl|]; assumption|].
    intros a Ha. destruct (reaches_last_step Ha) as (l & Hl & [->|Hr]).
    + apply (proj1 (Q l Hl)).
    + apply (proj2 (Q l Hl)). exact Hr.
  - intros x. left; reflexivity.
  - intros a b c [<-|H1] [<-|H2]; auto. right. eapply advance_trans; eauto.
  - intros l x x' [H1 H2] [<-|(_ & Gr & _)]; [tauto|].
    split; [apply (Gr this); assumption|].
    intros a Ha. apply (Gr this). auto.
  - intros x l x' Hl Rx B.
    assert (Gx : same_graph x g) by (destruct Rx as [<-|Rx]; [assumption | apply Rx]).
    assert (Sx : settled g x this)
      by (destruct Rx as [<-|Rx]; [assumption | eapply settled_advance; eauto]).
    destruct (in_edge Wg _ _ Hl) as (He & Hf & Hlk).
    assert (Ht : to_factor l = this) by (apply (wf_inputs Wg _ _ Hl)).
    set (gf := from_factor l) in *.
    set (m2 := push_new (set_visited x l true) this gf) in *.
    destruct (push_new_preserved (set_visited x l true) this gf) as [[P2 _] V2].
    fold m2 in P2, V2.
    assert (G2 : same_graph m2 g) by (eapply same_graph_trans; [exact P2 | exact Gx]).
    assert (Gr2 : grows x m2) by (apply (push_new_grows (set_visited x l true))).
    assert (H2 : In gf (predecessors m2 this)) by (apply push_new_In; auto).
    assert (Vm2 : forall k, visited m2 k = true -> k = l \/ visited x k = true).
    { intros k Hk. rewrite V2 in Hk. simpl in Hk.
      destruct (link_eqb k l) eqn:Ek; [left; apply link_eqb_eq; assumption | auto]. }
    assert (R3 : exists m3,
               (if visited x l then Some m2 else setPredecessors n gf m2) = Some m3 /\
               advance g x m3 /\ complete g m3 gf /\ grows m2 m3).
    { destruct (visited x l) eqn:V.
      - exists m2. split; [reflexivity|].
        assert (Cx : complete g x gf) by (apply (Sx l Hlk V); left; exact Ht).
        split; [|split; [eapply complete_grows; eauto | apply grows_refl]].
        split; [assumption|]. split; [assumption|].
        intros k Hk Hv. destruct (Vm2 k Hv) as [->|Hx]; auto.
      - assert (S2 : settled g m2 gf).
        { intros k Hk Hv Hx. destruct (Vm2 k Hv) as [->|Hvx].
          - exfalso. rewrite Ht in Hx. cut (reaches g this this); [apply Ag|].
            destruct Hx as [Hx|Hx].
            + apply t_step. rewrite Hx at 1. exact He.
            + apply t_trans with gf; [exact Hx | apply t_step; exact He].
          - eapply complete_grows; [|exact Gr2].
            apply (Sx k Hk Hvx). right.
            destruct Hx as [Hx|Hx].
            + rewrite Hx. apply t_step; exact He.
            + apply t_trans with gf; [exact Hx | apply t_step; exact He]. }
        destruct (setPredecessors n gf m2) as [m3|] eqn:R.
        + destruct (IH gf m2 m3 G2 S2 R) as [(G3 & Gr3 & V3) C3].
          exists m3. split; [reflexivity|].
          split; [|split; assumption].
          split; [assumption|]. split; [eapply grows_trans; eauto|].
          intros k Hk Hv. destruct (V3 k Hk Hv) as [Hv2|Hc]; [|auto].
          destruct (Vm2 k Hv2) as [->|Hx]; auto.
        + discriminate. }
    destruct R3 as (m3 & R3 & (G3 & Gr3 & V3) & C3 & Gr23).
    rewrite R3 in B. injection B as <-.
    destruct (push_all_preserved this (predecessors m3 gf) m3) as [[P4 _] V4].
    pose proof (push_all_grows this (predecessors m3 gf) m3) as Gr4.
    split.
    + right. split; [eapply same_graph_trans; eauto|].
      split; [eapply grows_trans; eauto|].
      intros k Hk Hv. rewrite V4 in Hv.
      destruct (V3 k Hk Hv) as [Hx|Hc]; [auto|].
      right. eapply complete_grows; eauto.
    + split.
      * apply (Gr4 this). apply (Gr23 this). exact H2.
      * intros a Ha. apply push_all_In. apply C3. exact Ha.
Qed.

Lemma makePredecessorLists_complete (fuel : nat) (m' : Model) :
  makePredecessorLists fuel g = Some m' ->
  forall n, In n (factors g) -> complete g m' n.
Proof.
  unfold makePredecessorLists.
  destruct (makePredecessorLists_start g) as (G & _ & V).
  set (m2 := fold_left _ (links _) _) in *.
  replace (factors m2) with (factors g) by (symmetry; apply G).
  assert (S0 : forall x, settled g m2 x).
  { intros x l Hl Hv. rewrite (V l Hl) in Hv. discriminate. }
  intros E.
  apply (@for_each_progress Factor Model
           (fun a b => a = b \/ advance g a b)
           (fun f x => complete g x f)) in E.
  - apply E.
  - intros x. left; reflexivity.
  - intros a b c [<-|H1] [<-|H2]; auto. right. eapply advance_trans; eauto.
  - intros f x x' C [<-|(_ & Gr & _)]; [assumption|].
    eapply complete_grows; eauto.
  - intros x f x' _ Rx B.
    assert (Gx : same_graph x g) by (destruct Rx as [<-|Rx]; [assumption | apply Rx]).
    assert (Sx : settled g x f)
      by (destruct Rx as [<-|Rx]; [apply S0 | eapply settled_advance; eauto]).
    destruct (setPredecessors_complete _ Gx Sx B) as [A C].
    split; [right; assumption | assumption].
Qed.
End Acyclic.

(** X9: on a graph without a directed cycle the predecessor list of every
    stored factor is exact after a full recompute: it holds the factors
    that reach it along one or more stored links, and no others. *)
Theorem predecessors_exact_on_acyclic (fuel : nat) (m m' : Model) :
  wf m -> acyclic m ->
  cleanUpFeedbackLinks fuel m = Some m' ->
  forall n a, In n (factors m) ->
    (In a (predecessors m' n) <-> reaches m a n).
Proof.
  intros W A E n a Hn.
  destruct (cleanUpFeedbackLinks_steps _ _ E) as (pm & m2 & _ & M & ->).
  destruct (markFeedback_spec m2) as (_ & -> & _).
  set (m1 := set_paths m pm (buildCycles pm)) in *.
  assert (W1 : wf m1) by (eapply wf_same_graph; [|exact W]; repeat split).
  assert (A1 : acyclic m1) by exact A.
  split.
  - intros Ha. apply (@makePredecessorLists_sound _ _ _ W1 M n a Hn Ha).
  - intros Hr. apply (@makePredecessorLists_complete m1 W1 A1 fuel m2 M n Hn a Hr).
Qed.

(** The chain A -> B -> C. *)
Lemma predecessors_exact_on_acyclic_witness :
  exists m', cleanUpFeedbackLinks 20 ex_chain = Some m' /\
    forall a, In a (predecessors m' 2) <-> reaches ex_chain a 2.
Proof.
  destruct (cleanUpFeedbackLinks 20 ex_chain) as [m'|] eqn:E;
    [|vm_compute in E; discriminate].
  exists m'. split; [reflexivity|].
  intros a.
  apply (@predecessors_exact_on_acyclic 20 ex_chain m');
    [apply wf_build; reflexivity | apply ascending_acyclic; reflexivity | exact E
    | vm_compute; tauto].
Defined.

(** X10: on a graph without a directed cycle, after a full recompute a
    factor has all its incoming links flagged as feedback exactly when it
    has no incoming link at all. *)
Theorem allInputsAreFeedback_on_acyclic (fuel : nat) (m m' : Model) (f : Factor) :
  wf m -> acyclic m ->
  cleanUpFeedbackLinks fuel m = Some m' ->
  (allInputsAreFeedback m' f = true <-> inputs m f = []).
Proof.
  intros W A E.
  destruct (cleanUpFeedbackLinks_graph _ _ E) as [(_ & Gl & Gi & _) _].
  unfold allInputsAreFeedback. rewrite Gi.
  split.
  - intros H. destruct (inputs m f) as [|l t] eqn:I; [reflexivity|].
    simpl in H. apply andb_true_iff in H. destruct H as [H _].
    assert (Hl : In l (links m)).
    { apply (wf_inputs W f). rewrite I; simpl; auto. }
    destruct (cleanUpFeedbackLinks_steps _ _ E) as (pm & m2 & B & M & ->).
    destruct (markFeedback_spec m2) as (_ & _ & _ & _ & F & _).
    pose proof (makePredecessorLists_preserved _ _ M) as ((_ & L2 & _) & _).
    rewrite (F l) in H by (rewrite L2; exact Hl).
    apply Z.leb_le in H. apply (indexOf_found Nat.eqb Nat.eqb_eq) in H.
    assert (W1 : wf (set_paths m pm (buildCycles pm)))
      by (eapply wf_same_graph; [|exact W]; repeat split).
    destruct (wf_links W l Hl) as (Hf & _).
    exfalso. apply (A (to_factor l)).
    apply t_trans with (from_factor l).
    + apply (@makePredecessorLists_sound _ _ _ W1 M _ _ Hf H).
    + apply t_step. unfold edge. destruct l; exact Hl.
  - intros ->. reflexivity.
Qed.

(** The end of the chain A -> B -> C has an incoming link that is not
    feedback. *)
Lemma allInputsAreFeedback_on_acyclic_witness :
  exists m', cleanUpFeedbackLinks 20 ex_chain = Some m' /\
    (allInputsAreFeedback m' 0 = true <-> inputs ex_chain 0 = []).
Proof.
  destruct (cleanUpFeedbackLinks 20 ex_chain) as [m'|] eqn:E;
    [|vm_compute in E; discriminate].
  exists m'. split; [reflexivity|].
  apply (@allInputsAreFeedback_on_acyclic 20 ex_chain m' 0);
    [apply wf_build; reflexivity | apply ascending_acyclic; reflexivity | exact E].
Defined.

(** ** Further properties: the path matrix and the cycle registry *)

Lemma pm_set_keys_absent (k : Factor) (v : list Path) (pm : PathMatrix) :
  ~ In k (pm_keys pm) -> pm_keys (pm_set k v pm) = pm_keys pm ++ [k].
Proof.
  induction pm as [|[a w] t IH]; simpl; intros N; [reflexivity|].
  destruct (Nat.eqb_spec a k) as [->|Na]; [tauto|].
  simpl. f_equal. apply IH. tauto.
Qed.

Lemma pm_set_keys_present (k : Factor) (v : list Path) (pm : PathMatrix) :
  In k (pm_keys pm) -> pm_keys (pm_set k v pm) = pm_keys pm.
Proof.
  induction pm as [|[a w] t IH]; simpl; intros H; [tauto|].
  destruct (Nat.eqb_spec a k) as [->|Na]; [reflexivity|].
  simpl. f_equal. apply IH. destruct H; [congruence | assumption].
Qed.

Lemma sproutPathsFrom_keys (out : Factor -> list Link) (fuel : nat) :
  forall path pm pm',
    sproutPathsFrom fuel out path pm = Some pm' -> pm_keys pm' = pm_keys pm.
Proof.
  induction fuel as [|n IH]; intros path pm pm' E; [discriminate|].
  simpl in E. destruct path as [|p0 rest]; [discriminate|].
  revert E. apply for_each_inv with (I := fun s => pm_keys s = pm_keys pm); [|reflexivity].
  intros s l s' _ Hs E.
  destruct (indexOf Nat.eqb (to_factor l) (p0 :: rest) <=? 0)%Z;
    [|injection E as <-; assumption].
  destruct (pm_push _ _ s) as [pm1|] eqn:P; [|discriminate].
  apply pm_push_keys in P.
  destruct (indexOf Nat.eqb (to_factor l) (p0 :: rest) <? 0)%Z.
  - apply IH in E. congruence.
  - injection E as <-. congruence.
Qed.

Lemma buildPaths_keys (out : Factor -> list Link) (fuel : nat) (fs : list Factor) :
  forall pm0 pm,
    NoDup fs -> (forall k, In k fs -> ~ In k (pm_keys pm0)) ->
    for_each
      (fun pm k =>
         for_each
           (fun pm l =>
              let path := [k; to_factor l] in
              let pm1 := pm_set k [path] pm in
              if negb (Nat.eqb k (to_factor l))
              then sproutPathsFrom fuel out path pm1
              else Some pm1)
           (out k) pm)
      fs pm0 = Some pm ->
    pm_keys pm = pm_keys pm0 ++ filter (fun k => negb (Nat.eqb (length (out k)) 0)) fs.
Proof.
  induction fs as [|k t IH]; intros pm0 pm N D E; simpl in E.
  - injection E as <-. simpl. rewrite app_nil_r. reflexivity.
  - destruct (for_each _ (out k) pm0) as [pm1|] eqn:In1; [|discriminate].
    inversion N as [|? ? Hk Nt]; subst.
    assert (K1 : pm_keys pm1 =
                 pm_keys pm0 ++ (if negb (Nat.eqb (length (out k)) 0) then [k] else [])).
    { destruct (out k) as [|l ls]; simpl in *.
      - injection In1 as <-. rewrite app_nil_r. reflexivity.
      - assert (Step : forall s l s',
                   (if negb (Nat.eqb k (to_factor l))
                    then sproutPathsFrom fuel out [k; to_factor l]
                           (pm_set k [[k; to_factor l]] s)
                    else Some (pm_set k [[k; to_factor l]] s)) = Some s' ->
                   pm_keys s' = pm_keys (pm_set k [[k; to_factor l]] s)).
        { intros s l0 s' B. destruct (negb (Nat.eqb k (to_factor l0))).
          - apply sproutPathsFrom_keys in B. exact B.
          - injection B as <-. reflexivity. }
        destruct (if negb (Nat.eqb k (to_factor l)) then _ else _) as [s1|] eqn:B1;
          [|discriminate].
        apply Step in B1. rewrite pm_set_keys_absent in B1 by (apply D; simpl; auto).
        revert In1.
        apply for_each_inv with (I := fun s => pm_keys s = pm_keys pm0 ++ [k]);
          [|assumption].
        intros s l0 s' _ Hs B. apply Step in B.
        rewrite pm_set_keys_present in B; [congruence|].
        rewrite Hs. apply in_app_iff; simpl; auto. }
    rewrite (IH pm1 pm Nt); [|
      | exact E].
    + rewrite K1. simpl.
      destruct (negb (Nat.eqb (length (out k)) 0)); simpl;
        [rewrite <- app_assoc; reflexivity | rewrite app_nil_r; reflexivity].
    + intros x Hx. rewrite K1. rewrite in_app_iff.
      intros [C|C]; [apply (D x); simpl; auto|].
      destruct (negb (Nat.eqb (length (out k)) 0)); simpl in C; [|tauto].
      destruct C as [<-|[]]. tauto.
Qed.

(** X11: when no factor is listed twice, the keys of the path matrix
    after [buildPathMatrix] are exactly the factors with at least one
    outgoing link, in the order of the factor collection; a factor without
    outgoing links has no entry. *)
Theorem path_matrix_keys (fuel : nat) (m m' : Model) :
  NoDup (factors m) ->
  buildPathMatrix fuel m = Some m' ->
  pm_keys (path_matrix m') = filter (has_outputs m) (factors m).
Proof.
  intros N E. unfold buildPathMatrix in E.
  destruct (buildPaths fuel (factors m) (outputs m)) as [pm|] eqn:B; [|discriminate].
  injection E as <-. simpl. unfold buildPaths in B.
  apply buildPaths_keys in B; [exact B | exact N | intros k _ []].
Qed.

(** The ring A -> B -> C -> A with D -> E: E has no entry. *)
Lemma path_matrix_keys_witness :
  exists m', buildPathMatrix 20 ex_ring = Some m' /\
    pm_keys (path_matrix m') = filter (has_outputs ex_ring) (factors ex_ring).
Proof.
  destruct (buildPathMatrix 20 ex_ring) as [m'|] eqn:E;
    [|vm_compute in E; discriminate].
  exists m'. split; [reflexivity|].
  apply (@path_matrix_keys 20 ex_ring m'); [|exact E].
  vm_compute. repeat constructor; simpl; intuition discriminate.
Defined.

Lemma recorded_in_concat (pm : PathMatrix) (k : Factor) (p : Path) :
  recorded pm k p -> In p (concat (map snd pm)).
Proof.
  intros (pl & Hk & Hp). apply in_concat. exists pl. split; [|assumption].
  apply in_map_iff. exists (k, pl). auto.
Qed.

Lemma registerPath_all_covered (ps : list Path) :
  forall cl,
    (forall c, In c cl -> In c (fold_left registerPath ps cl)) /\
    (forall p, In p ps -> closes p = true ->
               exists c, In c (fold_left registerPath ps cl) /\ matches p c).
Proof.
  induction ps as [|q t IH]; intros cl; simpl.
  - split; [auto | tauto].
  - destruct (IH (registerPath cl q)) as [K C].
    assert (Ext : forall c, In c cl -> In c (registerPath cl q)).
    { intros c Hc. unfold registerPath.
      destruct (closes q); [|assumption].
      destruct (known q cl); [assumption | apply in_app_iff; auto]. }
    split; [auto|].
    intros p [<-|Hp] Hc; [|auto].
    destruct (known q cl) eqn:Kn.
    + apply known_spec in Kn. destruct Kn as (c & Hin & M).
      exists c. split; [apply K, Ext; exact Hin | exact M].
    + exists q. split; [|split; [reflexivity | auto]].
      apply K. unfold registerPath. rewrite Hc, Kn.
      apply in_app_iff; simpl; auto.
Qed.

(** X12: no cycle candidate is lost by the registry: for every recorded
    path that returns to its first factor, the cycle list holds an entry
    that is the same cycle (equal length and the same set of factors). *)
Theorem registry_covers_candidates (fuel : nat) (m m' : Model) :
  wf m ->
  buildPathMatrix fuel m = Some m' ->
  forall k p, recorded (path_matrix m') k p -> closes p = true ->
    exists c, In c (cycle_list m') /\ same_cycle p c.
Proof.
  intros W E k p Hr Hc. unfold buildPathMatrix in E.
  destruct (buildPaths fuel (factors m) (outputs m)) as [pm|] eqn:B; [|discriminate].
  injection E as <-. simpl in *.
  pose proof (@buildPaths_sound m (wf_outputs W) _ _ _ B) as S.
  destruct (registerPath_all_covered (concat (map snd pm)) []) as [_ C].
  destruct (C p (recorded_in_concat Hr) Hc) as (c & Hin & M).
  rewrite <- buildCycles_sequential in Hin.
  exists c. split; [exact Hin|].
  destruct (buildCycles_recorded _ _ Hin) as (Cc & kc & Rc).
  apply (@matches_same_cycle p c
           (@edge_path_simple_cycle _ k p (S k p Hr) Hc)
           (@edge_path_simple_cycle _ kc c (S kc c Rc) Cc)).
  exact M.
Qed.

(** The ring: each of its three rotations is covered by the one entry. *)
Lemma registry_covers_candidates_witness :
  exists m', buildPathMatrix 20 ex_ring = Some m' /\
    exists c, In c (cycle_list m') /\ same_cycle [1; 2; 0; 1] c.
Proof.
  destruct (buildPathMatrix 20 ex_ring) as [m'|] eqn:E;
    [|vm_compute in E; discriminate].
  exists m'. split; [reflexivity|].
  apply (@registry_covers_candidates 20 ex_ring m') with (k := 1);
    [apply wf_build; reflexivity | exact E | | reflexivity].
  assert (P : option_map (fun x => nth_error (path_matrix x) 1)
                         (buildPathMatrix 20 ex_ring)
              = Some (Some (1, [[1; 2]; [1; 2; 0]; [1; 2; 0; 1]])))
    by (vm_compute; reflexivity).
  rewrite E in P. unfold option_map in P. injection P as P.
  exists [[1; 2]; [1; 2; 0]; [1; 2; 0; 1]].
  split; [apply (nth_error_In _ 1 P) | simpl; auto].
Defined.

(** ** Further properties: highlighting cycles *)

Section Positions.
Variable A : Type.
Variable eqb : A -> A -> bool.
Hypothesis eqb_eq : forall a b, eqb a b = true <-> a = b.

Lemma indexOf_position (x : A) (l : list A) :
  forall i, indexOf eqb x l = Z.of_nat i <->
            nth_error l i = Some x /\ forall j, j < i -> nth_error l j <> Some x.
Proof.
  induction l as [|y t IH]; intros i.
  - simpl. split; [lia|]. intros [H _]. destruct i; discriminate.
  - simpl. pose proof (indexOf_lower eqb x t) as L.
    destruct (eqb y x) eqn:E.
    + apply eqb_eq in E. subst y. destruct i as [|i].
      * simpl. split; [|reflexivity]. intros _. split; [reflexivity | lia].
      * split; [lia|]. intros [_ H]. exfalso. apply (H 0); [lia | reflexivity].
    + assert (N : y <> x) by (intros C; apply eqb_eq in C; congruence).
      destruct i as [|i].
      * simpl. split.
        -- destruct (indexOf eqb x t <? 0)%Z eqn:F; [lia|]. apply Z.ltb_ge in F. lia.
        -- intros [H _]. congruence.
      * simpl. destruct (indexOf eqb x t <? 0)%Z eqn:F.
        -- apply Z.ltb_lt in F. split; [lia|]. intros [H1 H2].
           assert (Hin : In x t) by (eapply nth_error_In; eauto).
           apply (indexOf_found eqb eqb_eq) in Hin. lia.
        -- apply Z.ltb_ge in F.
           assert (Q : (indexOf eqb x t + 1 = Z.of_nat (S i))%Z <->
                       indexOf eqb x t = Z.of_nat i) by lia.
           rewrite Q, IH. split; intros [H1 H2]; (split; [assumption|]).
           ++ intros [|j] Hj; simpl; [congruence | apply H2; lia].
           ++ intros j Hj. apply (H2 (S j)). lia.
Qed.

Lemma lastIndexOf_found (x : A) (l : list A) :
  (-1 <= lastIndexOf eqb x l)%Z /\ ((0 <= lastIndexOf eqb x l)%Z <-> In x l).
Proof.
  induction l as [|y t [L IH]]; simpl.
  - split; [lia|]. split; [lia | tauto].
  - destruct (0 <=? lastIndexOf eqb x t)%Z eqn:F.
    + apply Z.leb_le in F. split; [lia|]. split; [intros _; right; apply IH; lia | lia].
    + apply Z.leb_gt in F. destruct (eqb y x) eqn:E.
      * apply eqb_eq in E. split; [lia|]. split; [auto | lia].
      * assert (N : y <> x) by (intros C; apply eqb_eq in C; congruence).
        split; [lia|]. split; [lia|]. intros [C|C]; [congruence | apply IH in C; lia].
Qed.

Lemma lastIndexOf_position (x : A) (l : list A) :
  forall i, lastIndexOf eqb x l = Z.of_nat i <->
            nth_error l i = Some x /\ forall j, i < j -> nth_error l j <> Some x.
Proof.
  induction l as [|y t IH]; intros i.
  - simpl. split; [lia|]. intros [H _]. destruct i; discriminate.
  - simpl. destruct (lastIndexOf_found x t) as [L Fd].
    destruct (0 <=? lastIndexOf eqb x t)%Z eqn:F.
    + apply Z.leb_le in F. destruct i as [|i].
      * split; [lia|]. intros [_ H]. exfalso.
        assert (Hin : In x t) by (apply Fd; exact F).
        apply In_nth_error in Hin. destruct Hin as (j & Hj).
        apply (H (S j)); [lia | exact Hj].
      * assert (Q : (lastIndexOf eqb x t + 1 = Z.of_nat (S i))%Z <->
                    lastIndexOf eqb x t = Z.of_nat i) by lia.
        rewrite Q, IH. simpl. split; intros [H1 H2]; (split; [assumption|]).
        -- intros [|j] Hj; [lia | simpl; apply H2; lia].
        -- intros j Hj. apply (H2 (S j)). lia.
    + apply Z.leb_gt in F.
      assert (Nin : ~ In x t) by (intros C; apply Fd in C; lia).
      destruct (eqb y x) eqn:E.
      * apply eqb_eq in E. subst y. destruct i as [|i].
        -- simpl. split; [|reflexivity]. intros _. split; [reflexivity|].
           intros [|j] Hj; [lia|]. simpl. intros C. apply Nin. eapply nth_error_In; eauto.
        -- split; [lia|]. simpl. intros [H _]. exfalso. apply Nin. eapply nth_error_In; eauto.
      * assert (N : y <> x) by (intros C; apply eqb_eq in C; congruence).
        split; [lia|]. intros [H _]. destruct i as [|i]; simpl in H.
        -- congruence.
        -- exfalso. apply Nin. eapply nth_error_In; eauto.
Qed.
End Positions.

Lemma nth_error_removelast (A : Type) (l : list A) :
  forall j, S j < length l -> nth_error (removelast l) j = nth_error l j.
Proof.
  induction l as [|a t IH]; intros j Hj; [simpl in Hj; lia|].
  destruct t as [|b t]; [simpl in Hj; lia|].
  change (removelast (a :: b :: t)) with (a :: removelast (b :: t)).
  destruct j as [|j]; [reflexivity|].
  simpl nth_error. apply IH. simpl in *. lia.
Qed.

Lemma simple_path_step (c : Path) (i : nat) (u v : Factor) :
  simple_path c ->
  nth_error c i = Some u -> nth_error c (S i) = Some v ->
  indexOf Nat.eqb u c = Z.of_nat i /\ lastIndexOf Nat.eqb v c = Z.of_nat (S i).
Proof.
  intros [N1 N2] Hu Hv.
  assert (Li : S i < length c) by (apply nth_error_Some; congruence).
  split.
  - apply (indexOf_position Nat.eqb Nat.eqb_eq). split; [assumption|].
    intros j Hj C.
    assert (E : nth_error (removelast c) j = nth_error (removelast c) i)
      by (rewrite !nth_error_removelast by lia;
          transitivity (Some u); [exact C | symmetry; exact Hu]).
    apply (proj1 (NoDup_nth_error _) N1) in E; [lia|].
    assert (length (removelast c) = length c - 1).
    { destruct c as [|a t]; [reflexivity|].
      rewrite (app_removelast_last a (l := a :: t)) at 2 by discriminate.
      rewrite length_app. simpl. lia. }
    lia.
  - apply (lastIndexOf_position Nat.eqb Nat.eqb_eq). split; [assumption|].
    intros j Hj C. destruct c as [|a t]; [discriminate|].
    simpl in N2, Hv. destruct j as [|j]; [lia|]. simpl in C.
    assert (E : nth_error t i = nth_error t j)
      by (transitivity (Some v); [exact Hv | symmetry; exact C]).
    apply (proj1 (NoDup_nth_error _) N2) in E; [lia|].
    apply nth_error_Some. congruence.
Qed.

Lemma on_cycle_step (l : Link) (c : Path) :
  on_cycle l c = true -> step_of c (from_factor l) (to_factor l).
Proof.
  unfold on_cycle. intros H. apply andb_true_iff in H. destruct H as [H1 H2].
  apply Z.leb_le in H1. apply Z.eqb_eq in H2.
  destruct (Z_of_nat_complete _ H1) as (i & Hi).
  exists i. split.
  - apply (indexOf_position Nat.eqb Nat.eqb_eq) in Hi. apply Hi.
  - assert (K : lastIndexOf Nat.eqb (to_factor l) c = Z.of_nat (S i)) by lia.
    apply (lastIndexOf_position Nat.eqb Nat.eqb_eq) in K. apply K.
Qed.

Lemma step_on_cycle (l : Link) (c : Path) :
  simple_path c -> step_of c (from_factor l) (to_factor l) -> on_cycle l c = true.
Proof.
  intros Sp (i & Hu & Hv). destruct (@simple_path_step c i _ _ Sp Hu Hv) as [E1 E2].
  unfold on_cycle. rewrite E1, E2. apply andb_true_iff.
  split; [apply Z.leb_le; lia | apply Z.eqb_eq; lia].
Qed.

Lemma walk_step (E : Factor -> Factor -> Prop) (c : Path) :
  walk E c -> forall u v, step_of c u v -> E u v.
Proof.
  induction c as [|a t IH]; intros W u v (i & Hu & Hv).
  - destruct i; discriminate.
  - destruct t as [|b t]; [destruct i as [|[|i]]; discriminate|].
    destruct W as [Wab Wt]. destruct i as [|i].
    + simpl in Hu, Hv. congruence.
    + apply IH; [assumption|]. exists i. auto.
Qed.

Lemma cycleNumbers_from_In (h : Highlight) (l : Link) (cl : list Path) :
  forall i0 i,
    In i (cycleNumbers_from h l i0 cl) <->
    exists k c, i = (i0 + Z.of_nat k)%Z /\ nth_error cl k = Some c /\
                (show_all_cycles h || (i =? selected_cycle h)%Z) = true /\
                on_cycle l c = true.
Proof.
  induction cl as [|c t IH]; intros i0 i.
  - simpl. split; [tauto|]. intros (k & c & _ & H & _). destruct k; discriminate.
  - assert (Tail : In i (cycleNumbers_from h l (i0 + 1) t) <->
                   exists k c', i = (i0 + Z.of_nat (S k))%Z /\ nth_error t k = Some c' /\
                     (show_all_cycles h || (i =? selected_cycle h)%Z) = true /\
                     on_cycle l c' = true).
    { rewrite IH. split; intros (k & c' & H1 & H2 & H3 & H4); exists k, c';
        (split; [lia | auto]). }
    assert (Head : forall P : Prop,
               (P <-> (show_all_cycles h || (i0 =? selected_cycle h)%Z) = true /\
                      on_cycle l c = true /\ i = i0) ->
               (P \/ In i (cycleNumbers_from h l (i0 + 1) t) <->
                exists k c', i = (i0 + Z.of_nat k)%Z /\ nth_error (c :: t) k = Some c' /\
                  (show_all_cycles h || (i =? selected_cycle h)%Z) = true /\
                  on_cycle l c' = true)).
    { intros P HP. rewrite Tail, HP. split.
      - intros [(H1 & H2 & ->)|(k & c' & H1 & H2 & H3 & H4)].
        + exists 0, c. repeat split; auto. lia.
        + exists (S k), c'. auto.
      - intros ([|k] & c' & H1 & H2 & H3 & H4).
        + left. simpl in H2. injection H2 as <-.
          simpl in H1. rewrite Z.add_0_r in H1. subst i. auto.
        + right. exists k, c'. auto. }
    simpl. fold (on_cycle l c).
    destruct (show_all_cycles h || (i0 =? selected_cycle h)%Z) eqn:Sh.
    + destruct (on_cycle l c) eqn:Oc.
      * simpl. apply Head. intuition.
      * rewrite <- (Head False); [tauto | intuition discriminate].
    + rewrite <- (Head False); [tauto | intuition discriminate].
Qed.

Lemma cleanUpFeedbackLinks_cycles (fuel : nat) (m m' : Model) :
  wf m ->
  cleanUpFeedbackLinks fuel m = Some m' ->
  forall c, In c (cycle_list m') -> exists k, edge_path m k c /\ closes c = true.
Proof.
  intros W E c Hc.
  destruct (cleanUpFeedbackLinks_steps _ _ E) as (pm & m2 & B & M & ->).
  pose proof (makePredecessorLists_preserved _ _ M) as (_ & _ & _ & C2).
  destruct (markFeedback_spec m2) as (_ & _ & _ & C3 & _).
  rewrite C3, C2 in Hc. simpl in Hc.
  apply buildCycles_recorded in Hc. destruct Hc as (Hcl & k & Hr).
  exists k. split; [|assumption].
  apply (@buildPaths_sound m (wf_outputs W) _ _ _ B _ _ Hr).
Qed.

(** X13: after a full recompute, [cycleNumbers] of a link holds the index
    of a cycle in the cycle list exactly when that cycle is shown (all
    cycles are shown, or it is the selected one) and steps along the link;
    a link that is not stored gets no number. *)
Theorem cycleNumbers_are_cycles_through_link (fuel : nat) (m m' : Model) :
  wf m ->
  cleanUpFeedbackLinks fuel m = Some m' ->
  forall h l,
    (forall i, In i (cycleNumbers m' h l) <->
       exists k c, i = Z.of_nat k /\ nth_error (cycle_list m') k = Some c /\
                   (show_all_cycles h = true \/ i = selected_cycle h) /\
                   step_of c (from_factor l) (to_factor l)) /\
    (~ In l (links m) -> cycleNumbers m' h l = []).
Proof.
  intros W E h l.
  pose proof (@cleanUpFeedbackLinks_cycles fuel m m' W E) as Cy.
  assert (Main : forall i, In i (cycleNumbers m' h l) <->
       exists k c, i = Z.of_nat k /\ nth_error (cycle_list m') k = Some c /\
                   (show_all_cycles h = true \/ i = selected_cycle h) /\
                   step_of c (from_factor l) (to_factor l)).
  { intros i. unfold cycleNumbers. rewrite cycleNumbers_from_In.
    split; intros (k & c & H1 & H2 & H3 & H4); exists k, c;
      (split; [lia|]); (split; [assumption|]).
    - split.
      + apply orb_true_iff in H3. destruct H3 as [H3|H3]; [auto|].
        right. apply Z.eqb_eq. exact H3.
      + apply on_cycle_step; assumption.
    - split.
      + apply orb_true_iff. destruct H3 as [H3|H3]; [auto|].
        right. apply Z.eqb_eq. exact H3.
      + destruct (Cy c (nth_error_In _ _ H2)) as (kc & (_ & _ & _ & Sp) & _).
        apply step_on_cycle; assumption. }
  split; [exact Main|].
  assert (Stored : forall i, In i (cycleNumbers m' h l) -> In l (links m)).
  { intros i Hi.
    apply Main in Hi. destruct Hi as (k & c & _ & Hc & _ & St).
    destruct (Cy c (nth_error_In _ _ Hc)) as (kc & (_ & _ & Wk & _) & _).
    pose proof (@walk_step _ c Wk _ _ St) as Ed. unfold edge in Ed.
    destruct l; exact Ed. }
  intros N. destruct (cycleNumbers m' h l) as [|i t]; [reflexivity|].
  exfalso. apply N. apply (Stored i). simpl; auto.
Qed.

(** The link B -> C of the ring, with all cycles shown. *)
Lemma cycleNumbers_are_cycles_through_link_witness :
  exists m', cleanUpFeedbackLinks 20 ex_ring = Some m' /\
    forall i, In i (cycleNumbers m' (mkHighlight true (-1)) (mkLink 1 2)) <->
       exists k c, i = Z.of_nat k /\ nth_error (cycle_list m') k = Some c /\
                   (true = true \/ i = (-1)%Z) /\ step_of c 1 2.
Proof.
  destruct (cleanUpFeedbackLinks 20 ex_ring) as [m'|] eqn:E;
    [|vm_compute in E; discriminate].
  exists m'. split; [reflexivity|].
  apply (@cycleNumbers_are_cycles_through_link 20 ex_ring m');
    [apply wf_build; reflexivity | exact E].
Defined.

(** X14: a step of [highlightCycle] leaves the selected index between -1
    and the last index of the cycle list, provided the index was not
    beyond the length of the list before or the step is not a backward
    step; showing all cycles and selecting one are never combined. *)
Theorem highlightCycle_in_range (altKey shiftKey : bool) (m : Model) (h : Highlight) :
  (selected_cycle h <= Z.of_nat (length (cycle_list m)))%Z \/ shiftKey = false ->
  (-1 <= selected_cycle (highlightCycle altKey shiftKey m h)
   < Z.max 0 (Z.of_nat (length (cycle_list m))))%Z /\
  (show_all_cycles (highlightCycle altKey shiftKey m h) = true ->
   selected_cycle (highlightCycle altKey shiftKey m h) = (-1)%Z).
Proof.
  intros H. unfold highlightCycle.
  set (nc := Z.of_nat (length (cycle_list m))) in *.
  assert (0 <= nc)%Z by (unfold nc; lia).
  destruct (nc =? 0)%Z eqn:E0; [apply Z.eqb_eq in E0; simpl; lia|].
  apply Z.eqb_neq in E0.
  destruct altKey; [simpl; split; [lia | reflexivity]|].
  destruct (selected_cycle h <? 0)%Z eqn:E1; [simpl; split; [lia | discriminate]|].
  apply Z.ltb_ge in E1.
  destruct shiftKey; simpl.
  - destruct (selected_cycle h - 1 <? 0)%Z eqn:E2;
      [|apply Z.ltb_ge in E2]; (split; [|discriminate]).
    + lia.
    + destruct H as [H|H]; [lia | discriminate].
  - destruct (nc <=? selected_cycle h + 1)%Z eqn:E2;
      [|apply Z.leb_gt in E2]; (split; [lia | discriminate]).
Qed.

(** The analysed store A -> B, B -> A (one cycle), nothing selected. *)
Lemma highlightCycle_in_range_witness :
  (-1 <= selected_cycle (highlightCycle false true ex_mutual_analysed
                                        (mkHighlight false (-1)))
   < Z.max 0 (Z.of_nat (length (cycle_list ex_mutual_analysed))))%Z.
Proof.
  apply (@highlightCycle_in_range false true ex_mutual_analysed (mkHighlight false (-1))).
  left. vm_compute. discriminate.
Defined.

(** X15: with a cycle selected, stepping forward and then backward, or
    backward and then forward, comes back to the same cycle. *)
Theorem highlightCycle_there_and_back (m : Model) (h : Highlight) :
  (0 <= selected_cycle h < Z.of_nat (length (cycle_list m)))%Z ->
  highlightCycle false true m (highlightCycle false false m h)
  = mkHighlight false (selected_cycle h) /\
  highlightCycle false false m (highlightCycle false true m h)
  = mkHighlight false (selected_cycle h).
Proof.
  intros H. unfold highlightCycle.
  set (nc := Z.of_nat (length (cycle_list m))) in *.
  assert (E0 : (nc =? 0)%Z = false) by (apply Z.eqb_neq; lia).
  assert (E1 : (selected_cycle h <? 0)%Z = false) by (apply Z.ltb_ge; lia).
  rewrite E0, E1. split.
  - destruct (nc <=? selected_cycle h + 1)%Z eqn:E2; simpl.
    + apply Z.leb_le in E2. f_equal.
      replace (0 - 1 <? 0)%Z with true by (symmetry; apply Z.ltb_lt; lia). lia.
    + apply Z.leb_gt in E2.
      replace (selected_cycle h + 1 <? 0)%Z with false by (symmetry; apply Z.ltb_ge; lia).
      replace (selected_cycle h + 1 - 1 <? 0)%Z with false by (symmetry; apply Z.ltb_ge; lia).
      f_equal. lia.
  - destruct (selected_cycle h - 1 <? 0)%Z eqn:E2; simpl.
    + apply Z.ltb_lt in E2.
      replace (nc - 1 <? 0)%Z with false by (symmetry; apply Z.ltb_ge; lia).
      replace (nc <=? nc - 1 + 1)%Z with true by (symmetry; apply Z.leb_le; lia).
      f_equal. lia.
    + rewrite E2. apply Z.ltb_ge in E2.
      replace (nc <=? selected_cycle h - 1 + 1)%Z with false by (symmetry; apply Z.leb_gt; lia).
      f_equal. lia.
Qed.

(** The one cycle of the analysed store A -> B, B -> A, selected. *)
Lemma highlightCycle_there_and_back_witness :
  highlightCycle false true ex_mutual_analysed
    (highlightCycle false false ex_mutual_analysed (mkHighlight false 0))
  = mkHighlight false 0.
Proof.
  apply (@highlightCycle_there_and_back ex_mutual_analysed (mkHighlight false 0)).
  vm_compute. split; [discriminate | reflexivity].
Defined.

(** ** Further properties: the trigger sequence *)

Lemma for_down_inv (S : Type) (I : nat -> S -> Prop) (body : nat -> S -> option S) :
  forall n,
    (forall k s s', k < n -> I (Datatypes.S k) s -> body k s = Some s' -> I k s') ->
    forall s s', I n s -> for_down n body s = Some s' -> I 0 s'.
Proof.
  induction n as [|n IH]; simpl; intros Hb s s' Hs E.
  - injection E as <-. assumption.
  - destruct (body n s) as [s1|] eqn:B; [|discriminate].
    apply (IH (fun k x x' Hk => Hb k x x' (Nat.lt_lt_succ_r _ _ Hk)) s1 s'); [|exact E].
    apply (Hb n s s1); auto.
Qed.

Lemma for_down_total (S : Type) (I : nat -> S -> Prop) (body : nat -> S -> option S) :
  forall n,
    (forall k s, k < n -> I (Datatypes.S k) s -> exists s', body k s = Some s' /\ I k s') ->
    forall s, I n s -> exists s', for_down n body s = Some s' /\ I 0 s'.
Proof.
  induction n as [|n IH]; simpl; intros Hb s Hs.
  - eauto.
  - destruct (Hb n s) as (s1 & B & I1); auto.
    rewrite B. apply IH; [|assumption].
    intros k x Hk. apply Hb. lia.
Qed.

Lemma splice_at_fst (A : Type) (l : list A) :
  forall i, fst (splice_at i l) = nth_error l i.
Proof.
  induction l as [|x t IH]; intros [|i]; simpl; auto.
Qed.

Lemma splice_at_length (A : Type) (l : list A) :
  forall i, length (snd (splice_at i l))
            = if i <? length l then length l - 1 else length l.
Proof.
  induction l as [|x t IH]; intros [|i]; simpl; auto; [lia|].
  rewrite IH. change (S i <? S (length t)) with (i <? length t).
  destruct (i <? length t) eqn:E; [|reflexivity].
  apply Nat.ltb_lt in E. lia.
Qed.

Lemma splice_at_perm (l : list Factor) :
  forall i, Permutation l (defined [fst (splice_at i l)] ++ snd (splice_at i l)).
Proof.
  induction l as [|x t IH]; intros [|i]; simpl; auto.
  specialize (IH i). simpl in IH.
  destruct (fst (splice_at i t)) as [y|]; simpl in *.
  - eapply perm_trans; [apply perm_skip; exact IH | apply perm_swap].
  - apply perm_skip. exact IH.
Qed.

Lemma splice_at_app (A : Type) (l1 l2 : list A) (x : A) :
  splice_at (length l1) (l1 ++ x :: l2) = (Some x, l1 ++ l2).
Proof.
  induction l1 as [|a t IH]; simpl; [reflexivity|]. rewrite IH. reflexivity.
Qed.

Lemma defined_app (a b : list (option Factor)) :
  defined (a ++ b) = defined a ++ defined b.
Proof. unfold defined. apply flat_map_app. Qed.

Lemma take_out_perm (af0 : list Factor) (i : nat) (st : TriggerState) :
  Permutation af0 (defined (snd st) ++ fst st) ->
  Permutation af0 (defined (snd (take_out i st)) ++ fst (take_out i st)).
Proof.
  intros P. unfold take_out; simpl. rewrite defined_app, <- app_assoc.
  eapply perm_trans; [exact P|]. apply Permutation_app_head. apply splice_at_perm.
Qed.

Lemma take_out_length (i : nat) (st : TriggerState) :
  length (fst (take_out i st)) <= length (fst st) /\
  (i <= length (fst st) -> i <= length (fst (take_out i st))) /\
  (i < length (fst st) -> length (fst (take_out i st)) < length (fst st)).
Proof.
  unfold take_out; simpl. rewrite splice_at_length.
  destruct (i <? length (fst st)) eqn:E;
    [apply Nat.ltb_lt in E | apply Nat.ltb_ge in E]; lia.
Qed.

Lemma entryFactors_perm (m : Model) (static : Factor -> bool) (af : list Factor)
      (st : TriggerState) :
  entryFactors m static af = Some st ->
  Permutation af (defined (snd st) ++ fst st).
Proof.
  unfold entryFactors.
  apply (@for_down_inv TriggerState
           (fun _ x => Permutation af (defined (snd x) ++ fst x))).
  - intros k s s' _ P B.
    destruct (nth_error (fst s) k) as [f|]; [|discriminate].
    destruct (is_entry m static f); injection B as <-;
      [apply take_out_perm|]; assumption.
  - simpl. apply Permutation_refl.
Qed.

Lemma nextFactors_perm (m : Model) (pl : list (option Factor)) (af : list Factor)
      (st : TriggerState) :
  nextFactors m pl af = Some st ->
  Permutation af (defined (snd st) ++ fst st).
Proof.
  unfold nextFactors.
  apply (@for_down_inv TriggerState
           (fun _ x => Permutation af (defined (snd x) ++ fst x))).
  - intros k s s' _ P B.
    destruct (nth_error (fst s) k) as [f|]; [|discriminate].
    injection B as <-.
    apply fold_left_inv with
      (I := fun x : TriggerState => Permutation af (defined (snd x) ++ fst x));
      [|assumption].
    intros x l _ Px. destruct (0 <=? _)%Z; [apply take_out_perm|]; assumption.
  - simpl. apply Permutation_refl.
Qed.

Lemma triggerLayers_perm (m : Model) (all : list Factor) (fuel : nat) :
  forall af al seq seq' rest,
    Permutation all (defined (concat seq) ++ defined al ++ af) ->
    (forall x, In x seq -> x <> []) ->
    triggerLayers fuel m af al seq = Some (seq', rest) ->
    Permutation all (defined (concat seq') ++ rest) /\
    (forall x, In x seq' -> x <> []).
Proof.
  induction fuel as [|n IH]; intros af al seq seq' rest P Ne E.
  - destruct al; [|discriminate]. simpl in E. injection E as <- <-. auto.
  - destruct al as [|a al]; [simpl in E; injection E as <- <-; auto|].
    simpl in E.
    destruct (nextFactors m (a :: al) af) as [st|] eqn:Nx; [|discriminate].
    apply nextFactors_perm in Nx.
    apply (IH _ _ _ _ _) in E; [exact E| |].
    + rewrite concat_app, defined_app. simpl concat. rewrite app_nil_r, <- app_assoc.
      eapply perm_trans; [exact P|].
      apply Permutation_app_head. apply Permutation_app_head. exact Nx.
    + intros x Hx. apply in_app_iff in Hx.
      destruct Hx as [Hx|[<-|[]]]; [auto | discriminate].
Qed.

(** X16: when [triggerSequence] completes, every factor of the input array
    sits in exactly one place: the factors of all layers together with the
    factors left as unreachable are a rearrangement of the input array;
    and no layer is empty. *)
Theorem triggerSequence_partition (fuel : nat) (m : Model) (static : Factor -> bool)
        (af : list Factor) (seq : list (list (option Factor))) (rest : list Factor) :
  triggerSequence fuel m static af = Some (seq, rest) ->
  Permutation af (defined (concat seq) ++ rest) /\
  (forall x, In x seq -> x <> []).
Proof.
  unfold triggerSequence. intros E.
  destruct (entryFactors m static af) as [st|] eqn:En; [|discriminate].
  apply entryFactors_perm in En.
  apply (@triggerLayers_perm m af fuel (fst st) (snd st) [] seq rest);
    [exact En | intros x [] | exact E].
Qed.

(** The chain A -> B -> C. *)
Lemma triggerSequence_partition_witness :
  exists seq rest,
    triggerSequence 20 ex_chain (fun _ => false) [0; 1; 2] = Some (seq, rest) /\
    Permutation [0; 1; 2] (defined (concat seq) ++ rest).
Proof.
  destruct (triggerSequence 20 ex_chain (fun _ => false) [0; 1; 2])
    as [[seq rest]|] eqn:E; [|vm_compute in E; discriminate].
  exists seq, rest. split; [reflexivity|].
  apply (@triggerSequence_partition 20 ex_chain (fun _ => false) [0; 1; 2] seq rest E).
Defined.

Lemma entryFactors_total (m : Model) (static : Factor -> bool) (af : list Factor) :
  exists st, entryFactors m static af = Some st /\ length (fst st) <= length af.
Proof.
  unfold entryFactors.
  destruct (@for_down_total TriggerState
              (fun k x => k <= length (fst x) /\ length (fst x) <= length af)
              (fun i st =>
                 match nth_error (fst st) i with
                 | None => None
                 | Some f => if is_entry m static f then Some (take_out i st) else Some st
                 end) (length af)) with (s := (af, @nil (option Factor)))
    as (st & E & _ & L); [|simpl; lia|eauto].
  intros k s _ [Hk Hl].
  destruct (nth_error (fst s) k) as [f|] eqn:Nf;
    [|apply nth_error_None in Nf; lia].
  destruct (take_out_length k s) as (L1 & L2 & _).
  destruct (is_entry m static f); eexists; (split; [reflexivity|]); lia.
Qed.

Lemma nextFactors_total (m : Model) (pl : list (option Factor)) (af : list Factor) :
  exists st, nextFactors m pl af = Some st /\
             length (fst st) <= length af /\
             (snd st <> [] -> length (fst st) < length af).
Proof.
  unfold nextFactors.
  destruct (@for_down_total TriggerState
              (fun k x => k <= length (fst x) /\
                          (x = (af, @nil (option Factor)) \/ length (fst x) < length af))
              (fun i st =>
                 match nth_error (fst st) i with
                 | None => None
                 | Some f =>
                     Some (fold_left
                             (fun st l =>
                                if (0 <=? indexOf opt_eqb (Some (from_factor l)) pl)%Z
                                then take_out i st else st)
                             (inputs m f) st)
                 end) (length af)) with (s := (af, @nil (option Factor)))
    as (st & E & _ & L); [|simpl; auto|].
  - intros k s _ [Hk Hl].
    destruct (nth_error (fst s) k) as [f|] eqn:Nf;
      [|apply nth_error_None in Nf; lia].
    eexists. split; [reflexivity|].
    set (X := fold_left _ (inputs m f) s).
    assert (J : k <= length (fst X) /\ (X = s \/ length (fst X) < length (fst s))).
    { apply fold_left_inv with
        (I := fun x : TriggerState =>
                k <= length (fst x) /\
                (x = s \/ length (fst x) < length (fst s))); [|split; [lia | auto]].
      intros x l _ [X1 X2].
      destruct (0 <=? _)%Z; [|auto].
      destruct (take_out_length k x) as (L1 & L2 & L3).
      split; [auto|]. right.
      destruct X2 as [->|X2]; [apply L3; lia | lia]. }
    destruct J as [J1 [->|J2]]; [split; [lia | assumption]|].
    split; [assumption|]. right.
    destruct Hl as [->|Hl]; simpl in *; lia.
  - exists st. split; [assumption|].
    destruct L as [->|L]; simpl; [split; [lia | congruence] | lia].
Qed.

Lemma triggerLayers_total (m : Model) (fuel : nat) :
  forall af al seq,
    length af < fuel -> exists r, triggerLayers fuel m af al seq = Some r.
Proof.
  induction fuel as [|n IH]; intros af al seq L; [lia|].
  destruct al as [|a al]; [simpl; eauto|].
  simpl. destruct (nextFactors_total m (a :: al) af) as (st & -> & L1 & L2).
  destruct (snd st) as [|b bl] eqn:Sn.
  - destruct n; simpl; eauto.
  - apply IH. assert (length (fst st) < length af) by (apply L2; discriminate). lia.
Qed.

(** X17: [triggerSequence] runs to completion on every input array and
    every graph, cyclic or not: each pass of its [while] loop that finds
    successors takes at least one factor out of the array, so more passes
    than the array has factors are never needed. *)
Theorem triggerSequence_terminates (fuel : nat) (m : Model) (static : Factor -> bool)
        (af : list Factor) :
  length af < fuel ->
  exists r, triggerSequence fuel m static af = Some r.
Proof.
  intros L. unfold triggerSequence.
  destruct (entryFactors_total m static af) as (st & -> & Le).
  apply triggerLayers_total. lia.
Qed.

(** The ring with the separate link D -> E. *)
Lemma triggerSequence_terminates_witness :
  exists r, triggerSequence 6 ex_ring (fun _ => false) [0; 1; 2; 3; 4] = Some r.
Proof.
  apply (@triggerSequence_terminates 6 ex_ring (fun _ => false) [0; 1; 2; 3; 4]).
  simpl. lia.
Defined.

Lemma nth_error_split_at (A : Type) (l : list A) :
  forall n f, nth_error l n = Some f ->
    firstn (S n) l = firstn n l ++ [f] /\ skipn n l = f :: skipn (S n) l.
Proof.
  induction l as [|x t IH]; intros [|n] f H; try discriminate.
  - simpl in H. injection H as ->. split; reflexivity.
  - simpl in H. destruct (IH n f H) as [H1 H2].
    split; [simpl; f_equal; exact H1 | exact H2].
Qed.

Lemma entryFactors_result (m : Model) (static : Factor -> bool) (af : list Factor) :
  entryFactors m static af
  = Some (filter (fun f => negb (is_entry m static f)) af,
          map Some (rev (filter (is_entry m static) af))).
Proof.
  unfold entryFactors.
  set (body := fun (i : nat) (st : TriggerState) =>
                 match nth_error (fst st) i with
                 | None => None
                 | Some f => if is_entry m static f then Some (take_out i st) else Some st
                 end).
  assert (G : forall n, n <= length af ->
            for_down n body
              (firstn n af ++ filter (fun f => negb (is_entry m static f)) (skipn n af),
               map Some (rev (filter (is_entry m static) (skipn n af))))
            = Some (filter (fun f => negb (is_entry m static f)) af,
                    map Some (rev (filter (is_entry m static) af)))).
  { induction n as [|n IH]; intros L.
    - reflexivity.
    - destruct (nth_error af n) as [f|] eqn:Nf;
        [|apply nth_error_None in Nf; lia].
      destruct (nth_error_split_at _ _ Nf) as [F1 F2].
      assert (Ln : length (firstn n af) = n) by (apply firstn_length_le; lia).
      rewrite <- (IH ltac:(lia)). rewrite F1, F2, <- app_assoc.
      set (r := skipn (S n) af). set (h := firstn n af) in *.
      cbn [for_down app filter]. unfold body at 1. cbn [fst snd].
      replace (nth_error (h ++ f :: _) n) with (Some f)
        by (symmetry; rewrite nth_error_app2 by lia; rewrite Ln, Nat.sub_diag; reflexivity).
      destruct (is_entry m static f) eqn:Ef; simpl negb; cbv iota.
      + unfold take_out. cbn [fst snd].
        pose proof (splice_at_app h
                      (filter (fun f => negb (is_entry m static f)) r) f) as Sp.
        rewrite Ln in Sp. rewrite Sp. cbn [fst snd].
        simpl rev. rewrite map_app. reflexivity.
      + reflexivity. }
  specialize (G (length af) (Nat.le_refl _)).
  rewrite firstn_all, skipn_all in G. simpl in G. rewrite app_nil_r in G. exact G.
Qed.

Lemma take_out_incl (i : nat) (st : TriggerState) :
  incl (fst (take_out i st)) (fst st).
Proof.
  unfold take_out; simpl. intros x Hx.
  apply (Permutation_in x (Permutation_sym (splice_at_perm (fst st) i))).
  apply in_app_iff. auto.
Qed.

Lemma nextFactors_incl (m : Model) (pl : list (option Factor)) (af : list Factor)
      (st : TriggerState) :
  nextFactors m pl af = Some st -> incl (fst st) af.
Proof.
  unfold nextFactors.
  apply (@for_down_inv TriggerState (fun _ x => incl (fst x) af)).
  - intros k s s' _ P B.
    destruct (nth_error (fst s) k) as [f|]; [|discriminate].
    injection B as <-.
    apply fold_left_inv with (I := fun x : TriggerState => incl (fst x) af);
      [|assumption].
    intros x l _ Px. destruct (0 <=? _)%Z; [|assumption].
    eapply incl_tran; [apply take_out_incl | exact Px].
  - apply incl_refl.
Qed.

Lemma triggerLayers_shape (m : Model) (fuel : nat) :
  forall af al seq0 seq rest,
    triggerLayers fuel m af al seq0 = Some (seq, rest) ->
    incl rest af /\
    exists more, seq = seq0 ++ more /\ hd [] more = al /\
                 (al = [] -> more = [] /\ rest = af).
Proof.
  induction fuel as [|n IH]; intros af al seq0 seq rest E.
  - destruct al; [|discriminate]. simpl in E. injection E as <- <-.
    split; [apply incl_refl|]. exists []. rewrite app_nil_r. auto.
  - destruct al as [|a al].
    + simpl in E. injection E as <- <-.
      split; [apply incl_refl|]. exists []. rewrite app_nil_r. auto.
    + simpl in E.
      destruct (nextFactors m (a :: al) af) as [st|] eqn:Nx; [|discriminate].
      apply nextFactors_incl in Nx.
      destruct (IH _ _ _ _ _ E) as (I1 & more & -> & _ & _).
      split; [eapply incl_tran; eauto|].
      exists ((a :: al) :: more). rewrite <- app_assoc. simpl.
      split; [reflexivity|]. split; [reflexivity | discriminate].
Qed.

(** X18: in a completed [triggerSequence] the first layer holds exactly
    the entry factors (the factors without incoming links or with a static
    expression), last in the input array first; when there is none, no
    layer is formed and the whole input array is left as unreachable; and
    an entry factor is never left among the unreachable ones. *)
Theorem triggerSequence_first_layer (fuel : nat) (m : Model) (static : Factor -> bool)
        (af : list Factor) (seq : list (list (option Factor))) (rest : list Factor) :
  triggerSequence fuel m static af = Some (seq, rest) ->
  hd [] seq = map Some (rev (filter (is_entry m static) af)) /\
  (filter (is_entry m static) af = [] -> seq = [] /\ rest = af) /\
  (forall f, In f rest -> is_entry m static f = false).
Proof.
  unfold triggerSequence. rewrite entryFactors_result. cbn [fst snd]. intros E.
  destruct (triggerLayers_shape _ _ _ _ _ E) as (I & more & -> & Hd & Em).
  simpl. split; [exact Hd|]. split.
  - intros F. rewrite F in Em. destruct (Em eq_refl) as [-> ->].
    split; [reflexivity|].
    apply filter_keep_all. intros x Hx. apply negb_true_iff.
    destruct (is_entry m static x) eqn:Ex; [|reflexivity].
    assert (C : In x (filter (is_entry m static) af)) by (apply filter_In; auto).
    rewrite F in C. destruct C.
  - intros f Hf. apply I in Hf. apply filter_In in Hf.
    destruct Hf as [_ Hf]. apply negb_true_iff in Hf. exact Hf.
Qed.

(** The chain A -> B -> C: A is the one entry factor. *)
Lemma triggerSequence_first_layer_witness :
  exists seq rest,
    triggerSequence 20 ex_chain (fun _ => false) [0; 1; 2] = Some (seq, rest) /\
    hd [] seq = map Some (rev (filter (is_entry ex_chain (fun _ => false)) [0; 1; 2])).
Proof.
  destruct (triggerSequence 20 ex_chain (fun _ => false) [0; 1; 2])
    as [[seq rest]|] eqn:E; [|vm_compute in E; discriminate].
  exists seq, rest. split; [reflexivity|].
  apply (@triggerSequence_first_layer 20 ex_chain (fun _ => false) [0; 1; 2] seq rest E).
Defined.
